(** * Verification of gbroiles/imap_count

    Shallow embedding of the batch planner, the ResilientIMAP session
    manager (imap_delete.py and imap_count.py), the sender census and the
    move-to-trash pipeline of imap_delete2.py. *)

From Stdlib Require Import String Ascii List Arith Lia Bool Sorted Permutation.
Import ListNotations.
Open Scope nat_scope.

(** ** Batch planner

    [chunks = [email_ids[i:i + CHUNK_SIZE] for i in range(0, len(email_ids), CHUNK_SIZE)]]
    (imap_count.py, list_top_senders) and the equivalent loop
    [for i in range(0, total_emails, chunk_size): chunk = mail_ids[i:i + chunk_size]]
    (imap_delete2.py). *)
Module Planner.

(** Python's [range(start, stop, step)] for a positive step, walked with a
    fuel bound; [range_step] supplies [stop] as fuel, which is enough for
    any positive step. *)
Fixpoint range_go (step stop i fuel : nat) : list nat :=
  match fuel with
  | 0 => []
  | S f => if i <? stop then i :: range_go step stop (i + step) f else []
  end.

Definition range_step (start stop step : nat) : list nat :=
  range_go step stop start stop.

(** Python slice [xs[i:j]] for non-negative indices. *)
Definition slice {A} (xs : list A) (i j : nat) : list A :=
  firstn (j - i) (skipn i xs).

Definition chunks {A} (chunk_size : nat) (ids : list A) : list (list A) :=
  map (fun i => slice ids i (i + chunk_size)) (range_step 0 (length ids) chunk_size).

End Planner.

(** ** Session manager: class [ResilientIMAP]

    The two variants of the class, in imap_delete.py and in imap_count.py,
    share their fields and their [_connect] steps; they differ in that the
    imap_count.py [_connect] catches every exception it meets, and its
    [_retry_operation] looks at the shutdown flag before every attempt. *)
Module Session.

(** Exceptions the wrapped [imaplib] calls can raise. *)
Inductive exn :=
| IMAP4_abort (tag : nat)
| IMAP4_error (tag : nat)
| socket_error (tag : nat)
| EOFError
| OtherError (tag : nat).

(** [except (imaplib.IMAP4.abort, socket.error, EOFError)] *)
Definition is_connection_error (e : exn) : bool :=
  match e with
  | IMAP4_abort _ | socket_error _ | EOFError => true
  | IMAP4_error _ | OtherError _ => false
  end.

(** What [self.mail] is. *)
Inductive conn_state :=
| NoConn            (* self.mail is None *)
| LoggedOut         (* the previous handle, after self.mail.logout() *)
| NotAuthenticated  (* a fresh IMAP4_SSL whose login did not succeed *)
| Authenticated.

Record session := mk_session {
  mail : conn_state;
  current_folder : option string;
  readonly : bool;
  retries : nat;
  connects : nat   (* how many times _connect has run: indexes the world *)
}.

(** Calls on the network, in the order the code issues them. *)
Inductive event :=
| EOp (attempt : nat)             (* getattr(self.mail, op_name)( *args ) *)
| ESleep (seconds : nat)          (* time.sleep(2) *)
| ELogoutOld                      (* self.mail.logout() of the old handle *)
| EOpen                           (* imaplib.IMAP4_SSL(self.host, timeout=...) *)
| ELogin                          (* self.mail.login(self.user, self.password) *)
| ESelect (folder : string) (ro : bool).

Inductive reply := Returned (r : nat) | Raised (e : exn).

(** The answers of the server and of the transport: [op_result k] is
    what the [k]-th attempt of the operation does, [open_result j],
    [login_result j] and [select_result j] what the steps of the [j]-th
    run of [_connect] raise ([None]: they return), [shutdown_at k]
    whether the shutdown flag is set when attempt [k] starts. *)
Record world := {
  op_result : nat -> reply;
  open_result : nat -> option exn;
  login_result : nat -> option exn;
  select_result : nat -> option exn;
  shutdown_at : nat -> bool
}.

Definition set_mail (c : conn_state) (s : session) : session :=
  mk_session c (current_folder s) (readonly s) (retries s) (connects s).

Definition bump_connects (s : session) : session :=
  mk_session (mail s) (current_folder s) (readonly s) (retries s) (S (connects s)).

Definition has_mail (s : session) : bool :=
  match mail s with NoConn => false | _ => true end.

(** The truth value of [self.current_folder] in [if self.current_folder:]:
    [None] and the empty string are false. *)
Definition folder_if_set (o : option string) : option string :=
  match o with
  | Some f => if String.eqb f "" then None else Some f
  | None => None
  end.

(** [_connect] of imap_delete.py: the first failing step's exception
    propagates. *)
Definition connect_delete (w : world) (s : session)
  : list event * session * option exn :=
  let pre := if has_mail s then [ELogoutOld] else [] in
  let s0 := bump_connects (if has_mail s then set_mail LoggedOut s else s) in
  let j := connects s in
  match open_result w j with
  | Some e => (pre ++ [EOpen], s0, Some e)
  | None =>
      match login_result w j with
      | Some e => (pre ++ [EOpen; ELogin], set_mail NotAuthenticated s0, Some e)
      | None =>
          let s1 := set_mail Authenticated s0 in
          match folder_if_set (current_folder s) with
          | None => (pre ++ [EOpen; ELogin], s1, None)
          | Some f => (pre ++ [EOpen; ELogin; ESelect f (readonly s)], s1, select_result w j)
          end
      end
  end.

(** [_connect] of imap_count.py: the same steps inside
    [try: ... except Exception as e: logging.error(...)]. *)
Definition connect_count (w : world) (s : session) : list event * session :=
  let '(tr, s', _) := connect_delete w s in (tr, s').

Inductive outcome :=
| Return (r : nat)
| Raise (e : exn)
| RaiseNone          (* raise None, a TypeError, when retries = 0 *)
| ReturnAbort.       (* return 'ABORT', [] *)

(** [_retry_operation] of imap_delete.py; [attempt] runs over
    [range(self.retries)], [n] is the number of attempts left. *)
Fixpoint retry_loop_delete (w : world) (attempt n : nat) (s : session)
  (last : option exn) : list event * session * outcome :=
  match n with
  | 0 => ([], s, match last with Some e => Raise e | None => RaiseNone end)
  | S n' =>
      match op_result w attempt with
      | Returned r => ([EOp attempt], s, Return r)
      | Raised e =>
          if is_connection_error e then
            if attempt <? retries s - 1 then
              let '(tr, s1, err) := connect_delete w s in
              match err with
              | Some e' => (EOp attempt :: ESleep 2 :: tr, s1, Raise e')
              | None =>
                  let '(tr', s2, o) := retry_loop_delete w (S attempt) n' s1 (Some e) in
                  (EOp attempt :: ESleep 2 :: tr ++ tr', s2, o)
              end
            else
              let '(tr', s2, o) := retry_loop_delete w (S attempt) n' s (Some e) in
              (EOp attempt :: tr', s2, o)
          else ([EOp attempt], s, Raise e)
      end
  end.

Definition retry_operation_delete (w : world) (s : session) :=
  retry_loop_delete w 0 (retries s) s None.

(** [_retry_operation] of imap_count.py. *)
Fixpoint retry_loop_count (w : world) (attempt n : nat) (s : session)
  (last : option exn) : list event * session * outcome :=
  match n with
  | 0 => ([], s, match last with Some e => Raise e | None => RaiseNone end)
  | S n' =>
      if shutdown_at w attempt then ([], s, ReturnAbort) else
      match op_result w attempt with
      | Returned r => ([EOp attempt], s, Return r)
      | Raised e =>
          if is_connection_error e then
            if attempt <? retries s - 1 then
              let '(tr, s1) := connect_count w s in
              let '(tr', s2, o) := retry_loop_count w (S attempt) n' s1 (Some e) in
              (EOp attempt :: ESleep 2 :: tr ++ tr', s2, o)
            else
              let '(tr', s2, o) := retry_loop_count w (S attempt) n' s (Some e) in
              (EOp attempt :: tr', s2, o)
          else ([EOp attempt], s, Raise e)
      end
  end.

Definition retry_operation_count (w : world) (s : session) :=
  retry_loop_count w 0 (retries s) s None.

(** [ResilientIMAP.__init__(host, user, password, timeout=60, retries=3)]:
    the fields are set, [self.mail = None], [self.current_folder = None],
    then [self._connect()]. *)
Definition fresh_session : session := mk_session NoConn None false 3 0.

Inductive init_result := Constructed (s : session) | InitRaised (e : exn).

Definition init_delete (w : world) : list event * init_result :=
  let '(tr, s, err) := connect_delete w fresh_session in
  match err with Some e => (tr, InitRaised e) | None => (tr, Constructed s) end.

Definition init_count (w : world) : list event * init_result :=
  let '(tr, s) := connect_count w fresh_session in (tr, Constructed s).

(** The steps of a complete reconnect of [s], and whether the [j]-th run
    of [_connect] gets through them. *)
Definition reconnect_events (s : session) : list event :=
  [ELogoutOld; EOpen; ELogin] ++
  match folder_if_set (current_folder s) with Some f => [ESelect f (readonly s)] | None => [] end.



Definition outcome_of {S O} (r : list event * S * O) : O := snd r.


(** A session whose re-login fails during the first retry: the first
    attempt of the operation hits [IMAP4.abort], the reconnect opens a new
    socket but the login is refused, the second attempt returns. *)
Definition relogin_fails_world : world := {|
  op_result := fun k => match k with 0 => Raised (IMAP4_abort 0) | _ => Returned 0 end;
  open_result := fun _ => None;
  login_result := fun j => match j with 1 => Some (IMAP4_error 0) | _ => None end;
  select_result := fun _ => None;
  shutdown_at := fun _ => false
|}.


(** A constructed session (one [_connect] done) with INBOX selected
    read-only, as [get_thread_connection] leaves it. *)
Definition selected_session : session := mk_session Authenticated (Some "INBOX"%string) true 3 1.

(** The server refuses the credentials. *)
Definition login_refused_world : world := {|
  op_result := fun _ => Returned 0;
  open_result := fun _ => None;
  login_result := fun _ => Some (IMAP4_error 1);
  select_result := fun _ => None;
  shutdown_at := fun _ => false
|}.

(** "Construction never returns successfully while unauthenticated". *)
Definition constructs_authenticated (r : init_result) : Prop :=
  forall s, r = Constructed s -> mail s = Authenticated.

(** [ResilientIMAP.select(folder, readonly)]: [self.current_folder] and
    [self.readonly] are set before [self.mail.select(...)] runs, whose
    answer is [r]. *)
Definition select (r : reply) (folder : string) (ro : bool) (s : session)
  : list event * session * outcome :=
  let s' := mk_session (mail s) (Some folder) ro (retries s) (connects s) in
  ([ESelect folder ro], s', match r with Returned x => Return x | Raised e => Raise e end).

End Session.

(** ** Sender census: the tail of [list_top_senders]

    [senders.append(email_address.lower())] for every parsed address, then
    [Counter(senders)], the filter of the counts and
    [sorted(..., key=lambda item: item[1], reverse=True)]. *)
Module Census.

(** [str.lower] on the ASCII range. In imap_delete.py the addresses come
    from headers parsed by [email.message_from_bytes] under the compat32
    policy: RFC 2047 encoded words are left encoded, and a header holding
    non-ASCII bytes is returned as a [Header] object, from which
    [parseaddr] takes no address; the strings lower-cased there are ASCII,
    and on them [str.lower] is [lower]. *)
Definition lower_ascii (c : ascii) : ascii :=
  let n := nat_of_ascii c in
  if (65 <=? n) && (n <=? 90) then ascii_of_nat (n + 32) else c.

Fixpoint lower (s : string) : string :=
  match s with
  | EmptyString => EmptyString
  | String c s' => String (lower_ascii c) (lower s')
  end.

(** [collections.Counter], a dict in insertion order: a new key goes to
    the end, a known key has its count increased in place. *)
Fixpoint counter_add (x : string) (tbl : list (string * nat)) : list (string * nat) :=
  match tbl with
  | [] => [(x, 1)]
  | (k, c) :: t => if string_dec k x then (k, S c) :: t else (k, c) :: counter_add x t
  end.

Definition Counter (xs : list string) : list (string * nat) :=
  fold_left (fun tbl x => counter_add x tbl) xs [].

(** [sorted(..., key=lambda item: item[1], reverse=True)]: Python's sort
    is stable also with [reverse=True], so items of equal count keep their
    order; an insertion sort that puts an item before the first one whose
    count is not larger computes the same list. *)
Fixpoint insert_desc (p : string * nat) (l : list (string * nat)) : list (string * nat) :=
  match l with
  | [] => [p]
  | q :: l' => if snd q <=? snd p then p :: q :: l' else q :: insert_desc p l'
  end.

Fixpoint sort_desc (l : list (string * nat)) : list (string * nat) :=
  match l with
  | [] => []
  | p :: l' => insert_desc p (sort_desc l')
  end.

(** [lower_fn] is the lower-casing applied to each address. *)
Definition census (lower_fn : string -> string) (keep : nat -> bool) (addresses : list string)
  : list (string * nat) :=
  let senders := map lower_fn addresses in
  sort_desc (filter (fun p => keep (snd p)) (Counter senders)).

(** imap_delete.py: [if count >= MINIMUM_COUNT] with [MINIMUM_COUNT = 10]. *)
Definition MINIMUM_COUNT : nat := 10.
Definition census_delete : list string -> list (string * nat) :=
  census lower (fun c => MINIMUM_COUNT <=? c).

(** imap_count.py: the header is decoded with [.decode('utf-8',
    errors='ignore')], so the addresses are Unicode strings and
    [email_address.lower()] is Python's full [str.lower], given here as
    [str_lower]; the filter is [if count > 1]. *)
Definition census_count (str_lower : string -> string) : list string -> list (string * nat) :=
  census str_lower (fun c => 1 <? c).

(** The scenario of the spec: 250 messages, 150 from a@x.com, 80 from
    b@y.com and 20 from c@z.com. *)
Definition scenario : list string :=
  repeat "a@x.com"%string 150 ++ repeat "b@y.com"%string 80 ++ repeat "c@z.com"%string 20.

Definition scenario_report : list (string * nat) :=
  [("a@x.com"%string, 150); ("b@y.com"%string, 80); ("c@z.com"%string, 20)].

(** "Every reported sender occurs at least [MINIMUM_COUNT] times". *)
Definition meets_threshold (report : list (string * nat)) : Prop :=
  forall a n, In (a, n) report -> MINIMUM_COUNT <= n.

(** [tbl.get(a, 0)] on a counter. *)
Fixpoint lookup (a : string) (tbl : list (string * nat)) : nat :=
  match tbl with
  | [] => 0
  | (k, c) :: t => if string_dec k a then c else lookup a t
  end.

(** The invariant of [Counter] after the prefix [l0] of the senders. *)
Definition counts_of (l0 : list string) (tbl : list (string * nat)) : Prop :=
  NoDup (map fst tbl) /\
  (forall a, In a (map fst tbl) <-> In a l0) /\
  (forall a, lookup a tbl = count_occ string_dec l0 a).

(** Order of the report: counts do not increase. *)
Definition desc (p q : string * nat) : Prop := snd q <= snd p.

End Census.

(** ** Move to trash: [move_to_trash_explicit_fast] of imap_delete2.py

    One plain [imaplib.IMAP4_SSL] connection, no reconnect. The answers of
    the server are given by an environment; the function is followed
    statement by statement, including its [try/except/finally]. *)
Module Trash.

Inductive exn :=
| IMAP4_abort        (* imaplib.IMAP4.abort *)
| IMAP4_error        (* imaplib.IMAP4.error, e.g. refused credentials *)
| socket_error
| TypeError          (* IMAP4_SSL without a timeout parameter *)
| ValueError         (* time.sleep with a negative or nan delay *)
| KeyboardInterrupt  (* Ctrl+C: a BaseException, not caught by [except Exception] *)
| OtherError.

(** [except imaplib.IMAP4.error]: [abort] is a subclass of [error]. *)
Definition is_imap_error (x : exn) : bool :=
  match x with IMAP4_abort | IMAP4_error => true | _ => false end.

Definition is_abort (x : exn) : bool :=
  match x with IMAP4_abort => true | _ => false end.

Definition is_interrupt (x : exn) : bool :=
  match x with KeyboardInterrupt => true | _ => false end.

(** The exceptions that leave the inner [try] of an attempt: [IMAP4.abort]
    is re-raised by its handler, and [KeyboardInterrupt] passes
    [except Exception]. *)
Definition leaves_attempt (x : exn) : bool := is_abort x || is_interrupt x.

(** What an [imaplib] command does: returns a status ([true] for
    ['OK']) or raises. *)
Inductive cmd_result := Status (ok : bool) | Exc (x : exn).

Inductive event :=
| EConnect                          (* imaplib.IMAP4_SSL('imap.gmail.com', ...) *)
| ELogin
| ESelect
| ESearch
| ECopy (ids : list nat) (r : cmd_result)   (* mail.copy(id_str, trash_folder) *)
| EStore (ids : list nat) (r : cmd_result)  (* mail.store(id_str, '+FLAGS', '\\Deleted') *)
| ESleep (r : option exn)                    (* time.sleep(args.delay): returns or raises *)
| EExpunge
| EClose (r : option exn)                    (* mail.close() of the finally clause *)
| ELogout (r : option exn).                  (* mail.logout() *)

(** What [parser.parse_args()] does: returns the arguments, prints the
    help for [-h] and exits with status 0, or prints the usage for missing
    or invalid arguments (no positional argument, [--retries abc]) and
    exits with status 2. *)
Inductive args_outcome := ArgsOk | ArgsHelp | ArgsError.

Record env := {
  args_result : args_outcome;
  creds_set : bool;              (* GMAIL_ACCT and GMAIL_PASS both non-empty *)
  connect_result : option exn;
  fallback_result : option exn;  (* the second IMAP4_SSL after a TypeError *)
  login_result : option exn;
  select_result : cmd_result;
  search_result : cmd_result;
  search_ids : list nat;         (* data[0].split() *)
  dry_run : bool;
  retries : nat;                 (* --retries, default 3 *)
  copy_result : nat -> nat -> cmd_result;   (* batch index, attempt *)
  store_result : nat -> nat -> cmd_result;
  sleep_result : nat -> nat -> option exn;  (* time.sleep(args.delay) after attempt k of batch b;
                                               ValueError for a negative or nan --delay *)
  expunge_result : option exn;
  close_result : option exn;
  logout_result : option exn
}.

Definition chunk_size : nat := 100.

(** The body of [for attempt in range(args.retries)] for one attempt. *)
Inductive attempt_end := ABreak | AContinue | ARaise (x : exn).

Definition attempt_step (e : env) (b k : nat) (chunk : list nat) : list event * attempt_end :=
  match copy_result e b k with
  | Exc x => ([ECopy chunk (Exc x)], if leaves_attempt x then ARaise x else AContinue)
  | Status false => ([ECopy chunk (Status false)], AContinue)
  | Status true =>
      match store_result e b k with
      | Exc x => ([ECopy chunk (Status true); EStore chunk (Exc x)],
                  if leaves_attempt x then ARaise x else AContinue)
      | Status ok => ([ECopy chunk (Status true); EStore chunk (Status ok)],
                      if ok then ABreak else AContinue)
      end
  end.

Inductive batch_end := BSuccess | BFailed | BRaise (x : exn).

(** The retry loop of batch [b]; [n] attempts are left. The
    [time.sleep(args.delay)] is outside the inner [try]: an exception it
    raises leaves the loop. *)
Fixpoint batch_loop (e : env) (b : nat) (chunk : list nat) (attempt n : nat)
  : list event * batch_end :=
  match n with
  | 0 => ([], BFailed)
  | S n' =>
      let '(tr, r) := attempt_step e b attempt chunk in
      match r with
      | ABreak => (tr, BSuccess)
      | ARaise x => (tr, BRaise x)
      | AContinue =>
          if attempt <? retries e - 1 then
            match sleep_result e b attempt with
            | Some x => (tr ++ [ESleep (Some x)], BRaise x)
            | None =>
                let '(tr', r') := batch_loop e b chunk (S attempt) n' in
                (tr ++ ESleep None :: tr', r')
            end
          else
            let '(tr', r') := batch_loop e b chunk (S attempt) n' in
            (tr ++ tr', r')
      end
  end.

(** [for i in range(0, total_emails, chunk_size)], batch index [b];
    returns the events, [success_count] and the exception that escapes
    the loop, if any. *)
Fixpoint chunk_loop (e : env) (cs : list (list nat)) (b success : nat)
  : list event * nat * option exn :=
  match cs with
  | [] => ([], success, None)
  | c :: cs' =>
      let '(tr, r) := batch_loop e b c 0 (retries e) in
      match r with
      | BRaise x => (tr, success, Some x)
      | BSuccess =>
          let '(tr', s', o) := chunk_loop e cs' (S b) (success + length c) in (tr ++ tr', s', o)
      | BFailed =>
          let '(tr', s', o) := chunk_loop e cs' (S b) success in (tr ++ tr', s', o)
      end
  end.

(** How the [try] block ends; [BodyExc x] is handled by [except
    KeyboardInterrupt] or [except Exception], which only log. *)
Inductive body_end := BodyReturn | BodyExit (code : nat) | BodyExc (x : exn).

(** [mail] after the block: [None], a connection, or one whose state is
    ['SELECTED']. *)
Inductive mail_state := NoMail | Connected | Selected.

(** From [mail.select] to the end of the [try] block. *)
Definition after_login (e : env) : list event * body_end * nat * mail_state :=
  match select_result e with
  | Exc x => ([ESelect], BodyExc x, 0, Connected)
  | Status false => ([ESelect], BodyReturn, 0, Connected)
  | Status true =>
      match search_result e with
      | Exc x => ([ESelect; ESearch], BodyExc x, 0, Selected)
      | Status false => ([ESelect; ESearch], BodyReturn, 0, Selected)
      | Status true =>
          let mail_ids := search_ids e in
          match mail_ids with
          | [] => ([ESelect; ESearch], BodyReturn, 0, Selected)
          | _ :: _ =>
              if dry_run e then ([ESelect; ESearch], BodyReturn, 0, Selected) else
              let '(tr, success, o) := chunk_loop e (Planner.chunks chunk_size mail_ids) 0 0 in
              match o with
              | Some x => ([ESelect; ESearch] ++ tr, BodyExc x, success, Selected)
              | None =>
                  if 0 <? success
                  then ([ESelect; ESearch] ++ tr ++ [EExpunge], BodyReturn, success, Selected)
                  else ([ESelect; ESearch] ++ tr, BodyReturn, success, Selected)
              end
          end
      end
  end.

Definition after_connect (e : env) (tr0 : list event) : list event * body_end * nat * mail_state :=
  match login_result e with
  | Some x =>
      if is_imap_error x then (tr0 ++ [ELogin], BodyExit 1, 0, Connected)
      else (tr0 ++ [ELogin], BodyExc x, 0, Connected)
  | None =>
      let '(tr, r, n, m) := after_login e in (tr0 ++ [ELogin] ++ tr, r, n, m)
  end.

Definition body (e : env) : list event * body_end * nat * mail_state :=
  match connect_result e with
  | None => after_connect e [EConnect]
  | Some TypeError =>
      match fallback_result e with
      | None => after_connect e [EConnect; EConnect]
      | Some x => ([EConnect; EConnect], BodyExc x, 0, NoMail)
      end
  | Some socket_error => ([EConnect], BodyExit 1, 0, NoMail)
  | Some x => ([EConnect], BodyExc x, 0, NoMail)
  end.

(** The exception of a call that escapes [except Exception]. *)
Definition escaping (r : option exn) : option exn :=
  match r with
  | Some x => if is_interrupt x then Some x else None
  | None => None
  end.

(** The [finally] clause: [mail.close()] when the state is ['SELECTED'],
    then [mail.logout()], both in one [try ... except Exception]: a CLOSE
    that raises skips the LOGOUT. Returns the events and the exception that
    escapes the clause. *)
Definition cleanup (e : env) (m : mail_state) : list event * option exn :=
  match m with
  | NoMail => ([], None)
  | Connected => ([ELogout (logout_result e)], escaping (logout_result e))
  | Selected =>
      match close_result e with
      | Some x => ([EClose (Some x)], escaping (Some x))
      | None => ([EClose None; ELogout (logout_result e)], escaping (logout_result e))
      end
  end.

(** How the process ends: [sys.exit(code)] or a normal return (status 0),
    or killed by SIGINT, as Python does on an uncaught [KeyboardInterrupt]. *)
Inductive exit_status := Exited (code : nat) | KilledBySIGINT.

Record run_result := { events : list event; status : exit_status; success_count : nat }.

Definition move_to_trash_explicit_fast (e : env) : run_result :=
  match args_result e with
  | ArgsError => {| events := []; status := Exited 2; success_count := 0 |}
  | ArgsHelp => {| events := []; status := Exited 0; success_count := 0 |}
  | ArgsOk =>
      if negb (creds_set e) then {| events := []; status := Exited 1; success_count := 0 |} else
      let '(tr, r, n, m) := body e in
      let '(tr', o) := cleanup e m in
      {| events := tr ++ tr';
         status := match o with
                   | Some _ => KilledBySIGINT
                   | None => match r with BodyExit c => Exited c | _ => Exited 0 end
                   end;
         success_count := n |}
  end.

(** "A STORE of the deletion flag on an ID set comes right after a COPY
    of the same ID set that returned OK". *)
Definition copied_ok (prev : event) (ids : list nat) : bool :=
  match prev with
  | ECopy ids' (Status true) => if list_eq_dec Nat.eq_dec ids' ids then true else false
  | _ => false
  end.

Fixpoint store_guarded (prev : event) (tr : list event) : bool :=
  match tr with
  | [] => true
  | ev :: tr' =>
      match ev with EStore ids _ => copied_ok prev ids | _ => true end &&
      store_guarded ev tr'
  end.

Definition flag_follows_copy (tr : list event) : Prop :=
  forall pre post ids r, tr = pre ++ EStore ids r :: post ->
  exists pre', pre = pre' ++ [ECopy ids (Status true)].

(** Classification of events. *)
Definition succ_ev (ev : event) : bool :=
  match ev with EStore _ (Status true) => true | _ => false end.

(** The events that leave the batch loop by an exception: a COPY or
    STORE raising [IMAP4.abort] or [KeyboardInterrupt], a raising sleep. *)
Definition leave_ev (ev : event) : bool :=
  match ev with
  | ECopy _ (Exc x) | EStore _ (Exc x) => leaves_attempt x
  | ESleep (Some _) => true
  | _ => false
  end.

Definition is_expunge (ev : event) : bool :=
  match ev with EExpunge => true | _ => false end.

Definition is_copy (ev : event) : bool :=
  match ev with ECopy _ _ => true | _ => false end.

Definition is_mutating (ev : event) : bool :=
  match ev with ECopy _ _ | EStore _ _ | EExpunge => true | _ => false end.

(** "A chunk succeeded": both its COPY and its STORE returned OK. *)
Definition chunk_succeeded (tr : list event) : Prop :=
  exists ids, In (EStore ids (Status true)) tr.

(** "An exception left the batch loop": a COPY or STORE raised
    [imaplib.IMAP4.abort] or [KeyboardInterrupt], or a [time.sleep]
    between two attempts raised. *)
Definition loop_left (tr : list event) : Prop :=
  exists ev, In ev tr /\ leave_ev ev = true.

(** No COPY, STORE or EXPUNGE once the batch loop was left. *)
Fixpoint quiet_after_leave (seen : bool) (tr : list event) : bool :=
  match tr with
  | [] => true
  | ev :: tr' => (negb seen || negb (is_mutating ev)) &&
                 quiet_after_leave (seen || leave_ev ev) tr'
  end.

Definition any_guarded (tr : list event) : Prop := forall p, store_guarded p tr = true.

(** What the run-level properties of the EXPUNGE and of leaving the
    batch loop say about a trace. *)
Definition run_props (e : env) (tr : list event) : Prop :=
  length (filter is_expunge tr) <= 1 /\
  existsb is_expunge tr = existsb succ_ev tr && negb (existsb leave_ev tr) /\
  quiet_after_leave false tr = true /\
  (existsb is_expunge tr = true ->
     forall c, In c (Planner.chunks chunk_size (search_ids e)) -> exists r, In (ECopy c r) tr) /\
  (existsb is_expunge tr = true ->
     exists pre, tr = pre ++ EExpunge :: fst (cleanup e Selected) /\ existsb is_expunge pre = false).

(** "The EXPUNGE is issued iff a chunk succeeded". *)
Definition expunge_iff_success (tr : list event) : Prop :=
  existsb is_expunge tr = true <-> chunk_succeeded tr.

(** "A chunk's failure never stops the processing of the other chunks":
    every chunk gets its COPY issued. *)
Definition every_chunk_attempted (e : env) (tr : list event) : Prop :=
  forall c, In c (Planner.chunks chunk_size (search_ids e)) -> exists r, In (ECopy c r) tr.



(** The run gets past the SEARCH, which returned OK. *)
Definition search_succeeds (e : env) : Prop :=
  args_result e = ArgsOk /\ creds_set e = true /\
  (connect_result e = None \/ (connect_result e = Some TypeError /\ fallback_result e = None)) /\
  login_result e = None /\ select_result e = Status true /\ search_result e = Status true.



(** *** Effect of the commands on the two folders

    Following RFC 3501: COPY appends copies to the trash folder, STORE
    [+FLAGS \Deleted] flags messages of the selected folder, EXPUNGE and
    CLOSE (the folder is selected read-write, as [mail.select] does by
    default) remove the flagged messages of the selected folder. A message
    of the source folder is its identifier and its [\Deleted] flag. Only
    commands that returned are given an effect. *)
Record folders := mk_folders { source : list (nat * bool); trash_folder : list nat }.

Definition flag_deleted (ids : list nat) (src : list (nat * bool)) : list (nat * bool) :=
  map (fun m => (fst m, snd m || existsb (Nat.eqb (fst m)) ids)) src.

Definition purge (src : list (nat * bool)) : list (nat * bool) :=
  filter (fun m => negb (snd m)) src.

Definition apply_event (f : folders) (ev : event) : folders :=
  match ev with
  | ECopy ids (Status true) => mk_folders (source f) (trash_folder f ++ ids)
  | EStore ids (Status true) => mk_folders (flag_deleted ids (source f)) (trash_folder f)
  | EExpunge | EClose None => mk_folders (purge (source f)) (trash_folder f)
  | _ => f
  end.

Definition apply_events (f : folders) (tr : list event) : folders :=
  fold_left apply_event tr f.

(** "Both folders are left unchanged". *)
Definition leaves_folders_unchanged (tr : list event) : Prop :=
  forall f, apply_events f tr = f.

(** *** Concrete runs *)


(** 250 messages, three batches: batch 0 is moved; the COPY of batch 1
    hits [IMAP4.abort]. *)
Definition abort_second_batch_env : env := {|
  args_result := ArgsOk; creds_set := true; connect_result := None; fallback_result := None;
  login_result := None; select_result := Status true; search_result := Status true;
  search_ids := seq 1 250; dry_run := false; retries := 3;
  copy_result := fun b _ => if b =? 0 then Status true else Exc IMAP4_abort;
  store_result := fun _ _ => Status true;
  sleep_result := fun _ _ => None;
  expunge_result := None; close_result := None; logout_result := None |}.

(** The mailbox named on the command line does not exist. *)
Definition missing_folder_env : env := {|
  args_result := ArgsOk; creds_set := true; connect_result := None; fallback_result := None;
  login_result := None; select_result := Status false; search_result := Status true;
  search_ids := []; dry_run := false; retries := 3;
  copy_result := fun _ _ => Status true; store_result := fun _ _ => Status true;
  sleep_result := fun _ _ => None;
  expunge_result := None; close_result := None; logout_result := None |}.

(** No message of the sender. *)
Definition no_match_env : env := {|
  args_result := ArgsOk; creds_set := true; connect_result := None; fallback_result := None;
  login_result := None; select_result := Status true; search_result := Status true;
  search_ids := []; dry_run := false; retries := 3;
  copy_result := fun _ _ => Status true; store_result := fun _ _ => Status true;
  sleep_result := fun _ _ => None;
  expunge_result := None; close_result := None; logout_result := None |}.

(** A source folder holding message 7, already flagged [\Deleted] (for
    instance by an earlier run interrupted before its EXPUNGE). *)
Definition flagged_leftover : folders := mk_folders [(7, true)] [].

(** *** Counting over a run *)

(** Sum of the sizes of the ID sets whose STORE returned OK. *)
Fixpoint stored_ok_total (tr : list event) : nat :=
  match tr with
  | [] => 0
  | EStore ids (Status true) :: tr' => length ids + stored_ok_total tr'
  | _ :: tr' => stored_ok_total tr'
  end.

Definition is_sleep (ev : event) : bool :=
  match ev with ESleep _ => true | _ => false end.

(** A [time.sleep] that returned. *)
Definition sleep_returned (ev : event) : bool :=
  match ev with ESleep None => true | _ => false end.

(** The commands of the batch loop. *)
Definition loop_event (ev : event) : bool :=
  match ev with ECopy _ _ | EStore _ _ | ESleep _ => true | _ => false end.

(** The commands of the batch loop and the EXPUNGE. *)
Definition active_event (ev : event) : bool := loop_event ev || is_expunge ev.


(** [--dry-run], 150 matching messages. *)
Definition dry_run_env : env := {|
  args_result := ArgsOk; creds_set := true; connect_result := None; fallback_result := None;
  login_result := None; select_result := Status true; search_result := Status true;
  search_ids := seq 1 150; dry_run := true; retries := 3;
  copy_result := fun _ _ => Status true; store_result := fun _ _ => Status true;
  sleep_result := fun _ _ => None;
  expunge_result := None; close_result := None; logout_result := None |}.

(** [--retries 0], 150 matching messages. *)
Definition no_retries_env : env := {|
  args_result := ArgsOk; creds_set := true; connect_result := None; fallback_result := None;
  login_result := None; select_result := Status true; search_result := Status true;
  search_ids := seq 1 150; dry_run := false; retries := 0;
  copy_result := fun _ _ => Status true; store_result := fun _ _ => Status true;
  sleep_result := fun _ _ => None;
  expunge_result := None; close_result := None; logout_result := None |}.


(** [--delay -1], 250 messages: batch 0 is moved; the first COPY of
    batch 1 answers NO, and the [time.sleep(-1)] before its retry raises
    [ValueError]. *)
Definition negative_delay_env : env := {|
  args_result := ArgsOk; creds_set := true; connect_result := None; fallback_result := None;
  login_result := None; select_result := Status true; search_result := Status true;
  search_ids := seq 1 250; dry_run := false; retries := 3;
  copy_result := fun b _ => if b =? 0 then Status true else Status false;
  store_result := fun _ _ => Status true;
  sleep_result := fun _ _ => Some ValueError;
  expunge_result := None; close_result := None; logout_result := None |}.

End Trash.

(** ** imap_count.py: the sessions of [list_top_senders]

    Session [0] is [main_conn]; each [ResilientIMAP] that
    [get_thread_connection] creates gets the next number. [ELogout] stands
    for [ResilientIMAP.logout] (CLOSE, then LOGOUT, both errors caught).
    The chunks are submitted in order to a [ThreadPoolExecutor] of
    [MAX_WORKERS] threads; [worker_of k] is the pool thread that runs the
    [k]-th chunk, and each thread has its own [thread_local.mail]. The
    trace lists each chunk's calls in submission order; the threads run
    them concurrently, and the properties below concern which calls occur
    and the order of the main thread's calls, which do not depend on the
    interleaving: [main_conn.logout()] precedes the creation of the pool,
    and the final logouts follow [shutdown(wait=True)] at the end of the
    [with] block. The run has no interrupt. *)
Module Count.

Inductive event :=
| EOpen (sid : nat)      (* ResilientIMAP(...) *)
| ESelect (sid : nat)
| ESearch (sid : nat)
| EFetch (sid : nat)
| ELogout (sid : nat).

Record env := {
  select_ok : bool;          (* main_conn.select(folder, readonly=True) returns 'OK' *)
  search_ok : bool;          (* main_conn.search(None, 'ALL') returns 'OK' *)
  email_ids : list nat;
  worker_of : nat -> nat;    (* the pool thread that runs the k-th chunk *)
  select_raises : nat -> bool
    (* conn.select(folder, readonly=True) of session sid raises in
       get_thread_connection: its open or its login failed (self.mail is
       None, or not authenticated), or the server connection broke *)
}.

Definition CHUNK_SIZE : nat := 1000.

(** What one call of [fetch_chunk] sees: the thread's [thread_local.mail]
    and the shared [active_connections]. *)
Record worker := mk_worker {
  conn : option nat;               (* thread_local.mail *)
  active_connections : list nat
}.

(** The session [get_thread_connection] would create, and whether its
    [conn.select(...)] raises. *)
Record new_conn := mk_new_conn { sid : nat; select_fails : bool }.

(** [get_thread_connection]: the first time the thread needs one, it
    creates a session and selects the folder; only then is the session
    stored in [thread_local.mail] and appended to [active_connections]. A
    raising select leaves it neither stored nor registered: the result is
    [None], the exception leaving the function. *)
Definition get_thread_connection (w : worker) (fresh : new_conn)
  : list event * option nat * worker :=
  match conn w with
  | Some c => ([], Some c, w)
  | None =>
      if select_fails fresh then ([EOpen (sid fresh); ESelect (sid fresh)], None, w)
      else ([EOpen (sid fresh); ESelect (sid fresh)], Some (sid fresh),
            mk_worker (Some (sid fresh)) (active_connections w ++ [sid fresh]))
  end.

(** [fetch_chunk] with the value [shutdown_flag.is_set()] has when it
    starts. [mail.fetch] runs inside [try ... except Exception]; an
    exception of [get_thread_connection], called before the [try], ends
    the call (its future holds it, and the main loop logs it). *)
Definition fetch_chunk (shutdown_flag : bool) (w : worker) (fresh : new_conn) (chunk : list nat)
  : list event * worker :=
  if shutdown_flag then ([], w) else
  match get_thread_connection w fresh with
  | (tr, Some c, w') => (tr ++ [EFetch c], w')
  | (tr, None, w') => (tr, w')
  end.

(** The state of the pool: the [thread_local.mail] of each thread that
    has one, [active_connections], and the number of sessions created so
    far. *)
Record pool := mk_pool {
  thread_conns : list (nat * nat);
  registry : list nat;
  opened : nat
}.

Fixpoint thread_conn (t : nat) (l : list (nat * nat)) : option nat :=
  match l with
  | [] => None
  | (t', c) :: l' => if t' =? t then Some c else thread_conn t l'
  end.

(** The [k]-th chunk and the following ones. *)
Fixpoint run_chunks (e : env) (k : nat) (p : pool) (cs : list (list nat)) : list event * pool :=
  match cs with
  | [] => ([], p)
  | c :: cs' =>
      let t := worker_of e k in
      let w := mk_worker (thread_conn t (thread_conns p)) (registry p) in
      let fresh := mk_new_conn (opened p) (select_raises e (opened p)) in
      let '(tr, w') := fetch_chunk false w fresh c in
      let p' :=
        match conn w with
        | Some _ => p
        | None =>
            mk_pool (match conn w' with
                     | Some s => thread_conns p ++ [(t, s)]
                     | None => thread_conns p
                     end)
                    (active_connections w') (S (opened p))
        end in
      let '(tr', p'') := run_chunks e (S k) p' cs' in
      (tr ++ tr', p'')
  end.

Definition list_top_senders (e : env) : list event :=
  let main_conn := 0 in
  [EOpen main_conn; ESelect main_conn] ++
  if negb (select_ok e) then [] else
  [ESearch main_conn] ++
  if negb (search_ok e) then [] else
  [ELogout main_conn] ++
  let chunks := Planner.chunks CHUNK_SIZE (email_ids e) in
  let '(tr, p) := run_chunks e 0 (mk_pool [] [] 1) chunks in
  tr ++ map ELogout (registry p).

(** "Every session opened during the run reaches logged-out state before
    the run ends". *)
Definition every_session_logged_out (tr : list event) : Prop :=
  forall sid, In (EOpen sid) tr -> In (ELogout sid) tr.





(** The folder passed on the command line does not exist. *)
Definition missing_folder_env : env := {|
  select_ok := false; search_ok := true; email_ids := [];
  worker_of := fun k => k; select_raises := fun _ => false |}.

Definition two_chunks_env : env := {|
  select_ok := true; search_ok := true; email_ids := seq 1 1500;
  worker_of := fun k => k; select_raises := fun _ => false |}.


End Count.

(** ** folder_list.py: [get_gmail_folders]

    Every [Exception] after the credential check is caught and printed, so
    the function returns normally; only the missing credentials reach
    [sys.exit(1)], and a [KeyboardInterrupt] passes both handlers. The
    value is how the process ends. *)
Module FolderList.

Record env := { creds_set : bool; connect_result : option Trash.exn;
                login_result : option Trash.exn; list_result : Trash.cmd_result;
                logout_result : option Trash.exn }.




End FolderList.

(** ** imap_delete.py: [list_top_senders] *)

Module TopSenders.
Import Session.

(** The answer of a call that returns [(status, data)]: [status == 'OK']
    with [data], another status, or an exception. For [mail.search] and
    [mail.fetch] it is the answer of the whole [_retry_operation], retries
    included. *)
Inductive answer (A : Type) := Ok (a : A) | NotOk | Fails (e : exn).
Arguments Ok {A} a.
Arguments NotOk {A}.
Arguments Fails {A} e.

(** An element of [msg_data]: a [tuple] whose header block has the [From]
    value [msg.get('From')] ([None] when absent), or anything else (the
    closing [b')'] of a batch). *)
Inductive part := Tuple (from_header : option string) | Other.

Inductive event :=
| EInit (tr : list Session.event)  (* ResilientIMAP(imap_server, ...) *)
| ESelect (folder : string)        (* mail.select(folder, readonly=True) *)
| ESearch                          (* mail.search(None, 'ALL') *)
| EFetch (ids : list nat)          (* mail.fetch(b','.join(chunk), ...) *)
| EClose
| ELogout.

Record env := {
  init_world : Session.world;
  select_answer : answer unit;
  search_answer : answer (list nat);    (* messages[0].split() *)
  fetch_answer : list nat -> answer (list part);
  close_result : option exn;
  logout_result : option exn;
  parseaddr : string -> string          (* email.utils.parseaddr(...)[1] *)
}.

Inductive outcome :=
| Report (rows : list (string * nat))  (* the statistics are printed *)
| Returned                             (* an early [return] after a message *)
| Uncaught (e : exn).

(** [except imaplib.IMAP4.error]: [IMAP4.abort] is a subclass of it. *)
Definition is_imap_error (e : exn) : bool :=
  match e with IMAP4_error _ | IMAP4_abort _ => true | _ => false end.

Definition chunk_size : nat := 100.

(** The body of [for response_part in msg_data]. *)
Definition sender_of (e : env) (p : part) : list string :=
  match p with
  | Tuple (Some h) =>
      if string_dec h "" then [] else
      let a := parseaddr e h in
      if string_dec a "" then [] else [Census.lower a]
  | _ => []
  end.

(** The batch loop; [senders] is the list built so far. *)
Fixpoint fetch_batches (e : env) (cs : list (list nat)) (senders : list string)
  : list event * list string * option exn :=
  match cs with
  | [] => ([], senders, None)
  | c :: cs' =>
      match fetch_answer e c with
      | Fails x => ([EFetch c], senders, Some x)
      | NotOk =>
          let '(tr, s, err) := fetch_batches e cs' senders in (EFetch c :: tr, s, err)
      | Ok parts =>
          let '(tr, s, err) := fetch_batches e cs' (senders ++ flat_map (sender_of e) parts) in
          (EFetch c :: tr, s, err)
      end
  end.

(** [Counter(senders)], the counts [>= MINIMUM_COUNT], sorted by count. *)
Definition report (senders : list string) : list (string * nat) :=
  Census.sort_desc (filter (fun p => Census.MINIMUM_COUNT <=? snd p) (Census.Counter senders)).

Definition list_top_senders (e : env) (folder : string) : list event * outcome :=
  let '(itr, ir) := init_delete (init_world e) in
  match ir with
  | InitRaised x => ([EInit itr], if is_imap_error x then Returned else Uncaught x)
  | Constructed _ =>
      let pre := [EInit itr; ESelect folder] in
      match select_answer e with
      | Fails x => (pre, Uncaught x)
      | NotOk => (pre, Returned)
      | Ok _ =>
          match search_answer e with
          | Fails x => (pre ++ [ESearch], Uncaught x)
          | NotOk => (pre ++ [ESearch], Returned)
          | Ok email_ids =>
              let '(tr, senders, err) := fetch_batches e (Planner.chunks chunk_size email_ids) [] in
              let body := pre ++ ESearch :: tr in
              match err with
              | Some x => (body, Uncaught x)
              | None =>
                  match close_result e with
                  | Some x => (body ++ [EClose], Uncaught x)
                  | None =>
                      match logout_result e with
                      | Some x => (body ++ [EClose; ELogout], Uncaught x)
                      | None => (body ++ [EClose; ELogout], Report (report senders))
                      end
                  end
              end
          end
      end
  end.

Definition ok_world : Session.world := {|
  op_result := fun _ => Session.Returned 0;
  open_result := fun _ => None;
  login_result := fun _ => None;
  select_result := fun _ => None;
  shutdown_at := fun _ => false
|}.

(** 250 messages: message [i] is from [A@X.com] when [i] is even, from
    [b@y.com] when [i mod 10 = 1], from [c@z.com] otherwise; [parseaddr]
    returns the header as is. *)
Definition sample_env : env := {|
  init_world := ok_world;
  select_answer := Ok tt;
  search_answer := Ok (seq 1 250);
  fetch_answer := fun c => Ok (map (fun i => Tuple (Some
      (if Nat.even i then "A@X.com"%string
       else if Nat.eqb (i mod 10) 1 then "b@y.com"%string else "c@z.com"%string))) c
      ++ [Other]);
  close_result := None;
  logout_result := None;
  parseaddr := fun h => h
|}.

(** The same mailbox, with the search refused. *)
Definition search_refused_env : env := {|
  init_world := ok_world;
  select_answer := Ok tt;
  search_answer := NotOk;
  fetch_answer := fetch_answer sample_env;
  close_result := None;
  logout_result := None;
  parseaddr := fun h => h
|}.

End TopSenders.

(** * Properties *)

Module PlannerFacts.
Import Planner.

Lemma range_go_stop (step stop i fuel : nat) :
  stop <= i -> range_go step stop i fuel = [].
Proof.
  intros H; destruct fuel as [|f]; simpl; [reflexivity|].
  destruct (Nat.ltb_spec i stop); [lia | reflexivity].
Qed.

Lemma range_go_length (step stop i fuel : nat) :
  1 <= step -> stop - i <= fuel ->
  length (range_go step stop i fuel) = (stop - i + step - 1) / step.
Proof.
  intros Hs. revert i. induction fuel as [|f IH]; intros i Hf; simpl.
  - replace (stop - i) with 0 by lia. rewrite Nat.div_small; lia.
  - destruct (Nat.ltb_spec i stop) as [Hlt|Hge]; simpl.
    + rewrite IH by lia.
      destruct (Nat.le_gt_cases step (stop - i)) as [Hle|Hgt].
      * replace (stop - i + step - 1) with ((stop - (i + step) + step - 1) + 1 * step) by lia.
        rewrite Nat.div_add by lia. lia.
      * replace (stop - (i + step) + step - 1) with (step - 1) by lia.
        rewrite Nat.div_small by lia.
        replace (stop - i + step - 1) with ((stop - i - 1) + 1 * step) by lia.
        rewrite Nat.div_add by lia. rewrite Nat.div_small by lia. reflexivity.
    + replace (stop - i) with 0 by lia. rewrite Nat.div_small; lia.
Qed.

Lemma range_go_nth (step stop i fuel k : nat) :
  k < length (range_go step stop i fuel) ->
  nth k (range_go step stop i fuel) 0 = i + k * step.
Proof.
  revert i k. induction fuel as [|f IH]; intros i k Hk; simpl in *; [lia|].
  destruct (Nat.ltb_spec i stop); simpl in *; [|lia].
  destruct k as [|k]; [lia|].
  rewrite IH by lia. lia.
Qed.

Lemma slice_app {A} (xs : list A) (i n : nat) :
  slice xs i (i + n) ++ skipn (i + n) xs = skipn i xs.
Proof.
  unfold slice. replace (i + n - i) with n by lia.
  rewrite Nat.add_comm, <- skipn_skipn. apply firstn_skipn.
Qed.

Lemma range_go_concat {A} (ids : list A) (step i fuel : nat) :
  1 <= step -> length ids - i <= fuel ->
  concat (map (fun j => slice ids j (j + step)) (range_go step (length ids) i fuel))
  = skipn i ids.
Proof.
  intros Hs. revert i. induction fuel as [|f IH]; intros i Hf; simpl.
  - symmetry. apply length_zero_iff_nil. rewrite length_skipn. lia.
  - destruct (Nat.ltb_spec i (length ids)); simpl.
    + rewrite IH by lia. apply slice_app.
    + symmetry. apply length_zero_iff_nil. rewrite length_skipn. lia.
Qed.

Lemma last_as_nth {A} (l : list A) (d : A) :
  last l d = nth (length l - 1) l d.
Proof.
  induction l as [|x l IH]; [reflexivity|].
  destruct l as [|y l]; [reflexivity|].
  change (last (x :: y :: l) d) with (last (y :: l) d).
  rewrite IH. simpl. rewrite Nat.sub_0_r. reflexivity.
Qed.

Lemma chunks_nth_length {A} (C : nat) (ids : list A) (k : nat) :
  k < length (chunks C ids) ->
  length (nth k (chunks C ids) []) = Nat.min C (length ids - k * C).
Proof.
  unfold chunks, range_step. intros Hk. rewrite length_map in Hk.
  rewrite (nth_indep _ [] (slice ids 0 (0 + C))) by (rewrite length_map; exact Hk).
  rewrite (map_nth (fun i => slice ids i (i + C))).
  rewrite range_go_nth by exact Hk. simpl.
  unfold slice. rewrite length_firstn, length_skipn.
  replace (k * C + C - k * C) with C by lia. reflexivity.
Qed.

Lemma range_go_lt (step stop i fuel j : nat) :
  In j (range_go step stop i fuel) -> j < stop.
Proof.
  revert i. induction fuel as [|f IH]; intros i; simpl; [intros []|].
  destruct (Nat.ltb_spec i stop); simpl; [|intros []].
  intros [<-|Hin]; [assumption|exact (IH _ Hin)].
Qed.

Lemma chunks_nonempty {A} (C : nat) (ids : list A) :
  1 <= C -> Forall (fun c => c <> []) (chunks C ids).
Proof.
  intros HC. apply Forall_forall. intros c Hc.
  unfold chunks, range_step in Hc. apply in_map_iff in Hc as (j & <- & Hj).
  apply range_go_lt in Hj. intros H.
  apply (f_equal (@length A)) in H. unfold slice in H.
  rewrite length_firstn, length_skipn in H. simpl in H. lia.
Qed.

End PlannerFacts.

Module PlannerClaims.
Import Planner PlannerFacts.

(** C3: for every identifier list of length [L] and every chunk size
    [C >= 1], the planner yields [ceil(L/C)] chunks, every chunk but the
    last holds exactly [C] identifiers, the last one holds [L mod C] when
    that is positive, and the chunks concatenated in order give back the
    identifier list. *)
Theorem chunks_partition {A} (C : nat) (ids : list A) :
  1 <= C ->
  length (chunks C ids) = (length ids + C - 1) / C /\
  (forall k, k + 1 < length (chunks C ids) -> length (nth k (chunks C ids) []) = C) /\
  (length ids mod C <> 0 -> length (last (chunks C ids) []) = length ids mod C) /\
  concat (chunks C ids) = ids.
Proof.
  intros HC.
  assert (Hlen : length (chunks C ids) = (length ids + C - 1) / C).
  { unfold chunks, range_step. rewrite length_map, range_go_length by lia.
    now rewrite Nat.sub_0_r. }
  set (L := length ids) in *.
  pose proof (Nat.div_mod_eq L C) as HL.
  pose proof (Nat.mod_bound_pos L C ltac:(lia) ltac:(lia)) as Hr.
  split; [exact Hlen|]. split; [|split].
  - intros k Hk. rewrite chunks_nth_length by lia.
    assert (Hq : k + 2 <= (L + C - 1) / C) by lia.
    pose proof (Nat.div_mod_eq (L + C - 1) C) as HD.
    assert (C * (k + 2) <= C * ((L + C - 1) / C)) by (apply Nat.mul_le_mono_l; lia).
    lia.
  - intros Hm.
    assert (Hn : (L + C - 1) / C = L / C + 1).
    { symmetry. apply Nat.div_unique with (r := L mod C - 1); lia. }
    rewrite last_as_nth, chunks_nth_length by lia.
    rewrite Hlen, Hn. replace (L / C + 1 - 1) with (L / C) by lia. lia.
  - unfold chunks, range_step. rewrite range_go_concat by lia. reflexivity.
Qed.

End PlannerClaims.

Module SessionFacts.
Import Session.

Lemma connect_delete_fields (w : world) (s : session) :
  let s' := snd (fst (connect_delete w s)) in
  current_folder s' = current_folder s /\ readonly s' = readonly s /\
  retries s' = retries s /\ connects s' = S (connects s) /\
  (has_mail s = true -> has_mail s' = true).
Proof.
  intros s'. subst s'.
  unfold connect_delete, has_mail, set_mail, bump_connects.
  destruct (mail s), (open_result w (connects s)), (login_result w (connects s)),
    (folder_if_set (current_folder s)); simpl; repeat split; auto; discriminate.
Qed.



Lemma reconnect_events_fields (s s' : session) :
  current_folder s' = current_folder s -> readonly s' = readonly s ->
  reconnect_events s' = reconnect_events s.
Proof. intros H1 H2. unfold reconnect_events. now rewrite H1, H2. Qed.



Lemma connect_count_eq (w : world) (s : session) :
  connect_count w s = (fst (fst (connect_delete w s)), snd (fst (connect_delete w s))).
Proof. unfold connect_count. now destruct (connect_delete w s) as [[tr s'] err]. Qed.








End SessionFacts.

Module SessionClaims.
Import Session SessionFacts.




(** C7 (counterexample): the imap_count.py constructor returns a session
    whose login was refused. *)
Lemma init_count_unauthenticated :
  ~ constructs_authenticated (snd (init_count login_refused_world)).
Proof.
  intros H. specialize (H _ eq_refl). vm_compute in H. discriminate.
Qed.

(** C7 (amended): the imap_delete.py constructor either returns a
    session whose connection is authenticated, or raises the exception of
    the step that failed (opening the connection, or the login); the
    imap_count.py constructor always returns, with no connection when the
    connection could not be opened and with an unauthenticated one when
    the login failed. *)
Theorem init_spec (w : world) :
  constructs_authenticated (snd (init_delete w)) /\
  (forall e, snd (init_delete w) = InitRaised e ->
     open_result w 0 = Some e \/ (open_result w 0 = None /\ login_result w 0 = Some e)) /\
  (exists s, snd (init_count w) = Constructed s /\
     mail s = match open_result w 0, login_result w 0 with
              | Some _, _ => NoConn
              | None, Some _ => NotAuthenticated
              | None, None => Authenticated
              end).
Proof.
  unfold constructs_authenticated, init_delete, init_count, connect_count, connect_delete.
  simpl. split; [|split].
  - destruct (open_result w 0), (login_result w 0); simpl; intros s0 H;
      inversion H; reflexivity.
  - intros e. destruct (open_result w 0), (login_result w 0); simpl; intros H;
      inversion H; auto.
  - destruct (open_result w 0), (login_result w 0); simpl; eexists; split; reflexivity.
Qed.

End SessionClaims.

Module PlannerWitness.
Import Planner PlannerClaims.

Lemma chunks_partition_witness :
  1 <= 100 /\ concat (chunks 100 (seq 0 250)) = seq 0 250 /\
  map (@length nat) (chunks 100 (seq 0 250)) = [100; 100; 50].
Proof.
  split; [lia|]. split.
  - destruct (chunks_partition 100 (seq 0 250) ltac:(lia)) as (_ & _ & _ & H).
    exact H.
  - vm_compute. reflexivity.
Defined.

End PlannerWitness.

Module CensusFacts.
Import Census.

Lemma in_lookup (tbl : list (string * nat)) a n :
  NoDup (map fst tbl) ->
  (In (a, n) tbl <-> In a (map fst tbl) /\ n = lookup a tbl).
Proof.
  induction tbl as [|[k c] t IH]; simpl; intros Hnd; [tauto|].
  inversion Hnd as [|? ? Hk Hnd']; subst.
  destruct (string_dec k a) as [->|Hne].
  - split.
    + intros [H|H]; [injection H as <-; auto|].
      exfalso. apply Hk. apply (in_map fst) in H. exact H.
    + intros [_ ->]. left. reflexivity.
  - rewrite IH by exact Hnd'. split.
    + intros [H|H]; [injection H as -> _; contradiction|tauto].
    + intros [[H|H] Hn]; [contradiction|auto].
Qed.

Lemma lookup_counter_add x tbl a :
  lookup a (counter_add x tbl) = if string_dec a x then S (lookup a tbl) else lookup a tbl.
Proof.
  induction tbl as [|[k c] t IH]; simpl.
  - destruct (string_dec x a), (string_dec a x); subst; congruence.
  - destruct (string_dec k x) as [->|Hkx]; simpl.
    + destruct (string_dec x a), (string_dec a x); subst; congruence.
    + rewrite IH. destruct (string_dec k a); subst;
        destruct (string_dec a x); congruence.
Qed.

Lemma keys_counter_add x tbl :
  map fst (counter_add x tbl) =
  if in_dec string_dec x (map fst tbl) then map fst tbl else map fst tbl ++ [x].
Proof.
  induction tbl as [|[k c] t IH]; simpl; [reflexivity|].
  destruct (string_dec k x) as [->|Hkx]; simpl.
  - destruct (string_dec x x); [|congruence]. reflexivity.
  - rewrite IH. destruct (string_dec k x); [contradiction|].
    destruct (in_dec string_dec x (map fst t)); reflexivity.
Qed.

Lemma counts_of_add l0 tbl x :
  counts_of l0 tbl -> counts_of (l0 ++ [x]) (counter_add x tbl).
Proof.
  intros (Hnd & Hin & Hlk). split; [|split].
  - rewrite keys_counter_add. destruct (in_dec string_dec x (map fst tbl)) as [_|Hx];
      [exact Hnd|].
    apply NoDup_app; [exact Hnd|constructor; [intros []|constructor]|].
    intros a Ha [<-|[]]. contradiction.
  - intros a. rewrite keys_counter_add, in_app_iff.
    destruct (in_dec string_dec x (map fst tbl)) as [Hx|Hx].
    + rewrite Hin. simpl. split; [auto|]. intros [H|[<-|[]]]; [exact H|].
      apply Hin. exact Hx.
    + rewrite in_app_iff, Hin. reflexivity.
  - intros a. rewrite lookup_counter_add, count_occ_app, Hlk. simpl.
    destruct (string_dec a x), (string_dec x a); subst; try congruence; lia.
Qed.

Lemma counts_of_fold l0 tbl xs :
  counts_of l0 tbl ->
  counts_of (l0 ++ xs) (fold_left (fun t x => counter_add x t) xs tbl).
Proof.
  revert l0 tbl. induction xs as [|x xs IH]; intros l0 tbl H; simpl.
  - now rewrite app_nil_r.
  - replace (l0 ++ x :: xs) with ((l0 ++ [x]) ++ xs) by now rewrite <- app_assoc.
    apply IH, counts_of_add, H.
Qed.

Lemma Counter_spec xs :
  NoDup (map fst (Counter xs)) /\
  (forall a n, In (a, n) (Counter xs) <-> In a xs /\ n = count_occ string_dec xs a).
Proof.
  assert (H : counts_of ([] ++ xs) (Counter xs)).
  { apply counts_of_fold. split; [constructor|]. split; [simpl; tauto|reflexivity]. }
  simpl in H. destruct H as (Hnd & Hin & Hlk). split; [exact Hnd|].
  intros a n. rewrite in_lookup, Hin, Hlk by exact Hnd. reflexivity.
Qed.

Lemma insert_desc_perm p l : Permutation (insert_desc p l) (p :: l).
Proof.
  induction l as [|q l IH]; simpl; [reflexivity|].
  destruct (snd q <=? snd p); [reflexivity|].
  rewrite IH. apply perm_swap.
Qed.

Lemma sort_desc_perm l : Permutation (sort_desc l) l.
Proof.
  induction l as [|p l IH]; simpl; [reflexivity|].
  rewrite insert_desc_perm, IH. reflexivity.
Qed.

Lemma insert_desc_hd q p l :
  desc q p -> HdRel desc q l -> HdRel desc q (insert_desc p l).
Proof.
  intros Hqp Hl. destruct l as [|r l]; simpl; [constructor; exact Hqp|].
  destruct (snd r <=? snd p); constructor; [exact Hqp|].
  inversion Hl; assumption.
Qed.

Lemma insert_desc_sorted p l : Sorted desc l -> Sorted desc (insert_desc p l).
Proof.
  induction l as [|q l IH]; simpl; intros Hs; [repeat constructor|].
  destruct (Nat.leb_spec (snd q) (snd p)) as [Hle|Hgt].
  - constructor; [exact Hs|constructor; exact Hle].
  - inversion Hs as [|? ? Hs' Hhd]; subst.
    constructor; [exact (IH Hs')|].
    apply insert_desc_hd; [unfold desc; lia|exact Hhd].
Qed.

Lemma sort_desc_sorted l : Sorted desc (sort_desc l).
Proof.
  induction l as [|p l IH]; simpl; [constructor|]. apply insert_desc_sorted, IH.
Qed.

Lemma nodup_keys_filter (f : string * nat -> bool) l :
  NoDup (map fst l) -> NoDup (map fst (filter f l)).
Proof.
  induction l as [|p l IH]; simpl; intros H; [constructor|].
  inversion H as [|? ? Hp Hl]; subst.
  destruct (f p); simpl; [|exact (IH Hl)].
  constructor; [|exact (IH Hl)].
  intros Hin. apply Hp. apply in_map_iff in Hin as (q & Hq & Hin).
  apply filter_In in Hin as [Hin _]. rewrite <- Hq. apply in_map, Hin.
Qed.

Lemma census_spec_gen lower_fn keep addresses :
  Sorted desc (census lower_fn keep addresses) /\
  NoDup (map fst (census lower_fn keep addresses)) /\
  (forall a n, In (a, n) (census lower_fn keep addresses) <->
     In a (map lower_fn addresses) /\ n = count_occ string_dec (map lower_fn addresses) a /\
     keep n = true).
Proof.
  unfold census. destruct (Counter_spec (map lower_fn addresses)) as [Hnd Hin].
  split; [apply sort_desc_sorted|split].
  - eapply Permutation_NoDup; [apply Permutation_map; symmetry; apply sort_desc_perm|].
    apply nodup_keys_filter, Hnd.
  - intros a n. split.
    + intros H. apply (Permutation_in _ (sort_desc_perm _)) in H.
      apply filter_In in H as [H Hk]. apply Hin in H as [H1 H2]. auto.
    + intros (H1 & H2 & H3). apply (Permutation_in _ (Permutation_sym (sort_desc_perm _))).
      apply filter_In. split; [apply Hin; auto|exact H3].
Qed.

End CensusFacts.

Module TrashFacts.
Import Trash.

Lemma run_events e : events (move_to_trash_explicit_fast e) =
  match args_result e with
  | ArgsOk => if creds_set e then let '(tr, r, n, m) := body e in tr ++ fst (cleanup e m) else []
  | _ => []
  end.
Proof.
  unfold move_to_trash_explicit_fast.
  destruct (args_result e); [|reflexivity|reflexivity].
  destruct (creds_set e); [|reflexivity]. simpl.
  destruct (body e) as [[[tr r] n] m]. destruct (cleanup e m). reflexivity.
Qed.

Lemma run_success e : success_count (move_to_trash_explicit_fast e) =
  match args_result e with
  | ArgsOk => if creds_set e then snd (fst (body e)) else 0
  | _ => 0
  end.
Proof.
  unfold move_to_trash_explicit_fast.
  destruct (args_result e); [|reflexivity|reflexivity].
  destruct (creds_set e); [|reflexivity]. simpl.
  destruct (body e) as [[[tr r] n] m]. destruct (cleanup e m). reflexivity.
Qed.


Lemma last_cons_default {A} (x : A) a (p : A) : last (x :: a) p = last a x.
Proof.
  revert x p. induction a as [|y a IH]; intros x p; [reflexivity|].
  change (last (x :: y :: a) p) with (last (y :: a) p).
  rewrite IH. symmetry. apply IH.
Qed.

Lemma store_guarded_app p a b :
  store_guarded p (a ++ b) = store_guarded p a && store_guarded (last a p) b.
Proof.
  revert p. induction a as [|x a IH]; intros p; [reflexivity|].
  rewrite last_cons_default. simpl. rewrite IH, andb_assoc. reflexivity.
Qed.

Lemma any_guarded_app a b : any_guarded a -> any_guarded b -> any_guarded (a ++ b).
Proof. intros Ha Hb p. rewrite store_guarded_app, Ha, Hb. reflexivity. Qed.

Lemma attempt_step_guarded e b k c : any_guarded (fst (attempt_step e b k c)).
Proof.
  intros p. unfold attempt_step.
  destruct (copy_result e b k) as [[|]|x]; [|reflexivity|reflexivity].
  destruct (store_result e b k) as [ok|x]; simpl;
    destruct (list_eq_dec Nat.eq_dec c c); try congruence; reflexivity.
Qed.

Lemma batch_loop_guarded e b c n : forall k, any_guarded (fst (batch_loop e b c k n)).
Proof.
  induction n as [|n IH]; intros k; simpl; [intros p; reflexivity|].
  pose proof (attempt_step_guarded e b k c) as Ha.
  destruct (attempt_step e b k c) as [tr r]. simpl in Ha.
  destruct r; simpl; try exact Ha.
  specialize (IH (S k)). destruct (batch_loop e b c (S k) n) as [tr' r']. simpl in *.
  destruct (k <? retries e - 1); [destruct (sleep_result e b k)|]; simpl;
    apply any_guarded_app; try exact Ha; try exact IH.
  - intros p; reflexivity.
  - apply (any_guarded_app [ESleep None]); [intros p; reflexivity|exact IH].
Qed.

Lemma chunk_loop_guarded e cs : forall b succ, any_guarded (fst (fst (chunk_loop e cs b succ))).
Proof.
  induction cs as [|c cs IH]; intros b succ; simpl; [intros p; reflexivity|].
  pose proof (batch_loop_guarded e b c (retries e) 0) as Hb.
  destruct (batch_loop e b c 0 (retries e)) as [tr r]. simpl in Hb.
  destruct r.
  - specialize (IH (S b) (succ + length c)).
    destruct (chunk_loop e cs (S b) (succ + length c)) as [[tr' s'] o].
    simpl in *. apply any_guarded_app; assumption.
  - specialize (IH (S b) succ).
    destruct (chunk_loop e cs (S b) succ) as [[tr' s'] o].
    simpl in *. apply any_guarded_app; assumption.
  - exact Hb.
Qed.

Lemma after_login_guarded e : any_guarded (fst (fst (fst (after_login e)))).
Proof.
  unfold after_login.
  destruct (select_result e) as [[|]|x]; try (intros p; reflexivity).
  destruct (search_result e) as [[|]|x]; try (intros p; reflexivity).
  destruct (search_ids e) as [|i is]; [intros p; reflexivity|].
  destruct (dry_run e); [intros p; reflexivity|].
  pose proof (chunk_loop_guarded e (Planner.chunks chunk_size (i :: is)) 0 0) as Hc.
  destruct (chunk_loop e (Planner.chunks chunk_size (i :: is)) 0 0) as [[tr n] o].
  simpl in Hc.
  destruct o; [|destruct (0 <? n)]; cbn [fst];
    repeat apply any_guarded_app; try exact Hc; intros p; reflexivity.
Qed.

Lemma after_connect_guarded e tr0 :
  any_guarded tr0 -> any_guarded (fst (fst (fst (after_connect e tr0)))).
Proof.
  intros H0. unfold after_connect.
  destruct (login_result e) as [x|].
  - destruct (is_imap_error x); simpl; apply any_guarded_app; try exact H0;
      intros p; reflexivity.
  - pose proof (after_login_guarded e) as Hl.
    destruct (after_login e) as [[[tr r] n] m]. simpl in *.
    apply any_guarded_app; [exact H0|]. intros p. exact (Hl ELogin).
Qed.

Lemma cleanup_guarded e m : any_guarded (fst (cleanup e m)).
Proof.
  unfold cleanup. destruct m; [| |destruct (close_result e)]; intros p; reflexivity.
Qed.

Lemma run_guarded e : any_guarded (events (move_to_trash_explicit_fast e)).
Proof.
  rewrite run_events.
  destruct (args_result e); try (intros p; reflexivity).
  destruct (creds_set e); [|intros p; reflexivity].
  assert (Hb : any_guarded (fst (fst (fst (body e))))).
  { unfold body. destruct (connect_result e) as [[]|];
      try (intros p; reflexivity);
      try (apply after_connect_guarded; intros p; reflexivity).
    destruct (fallback_result e); [intros p; reflexivity|].
    apply after_connect_guarded; intros p; reflexivity. }
  destruct (body e) as [[[tr r] n] m]. simpl in *.
  apply any_guarded_app; [exact Hb|apply cleanup_guarded].
Qed.

Lemma store_guarded_prefix p tr :
  store_guarded p tr = true ->
  forall pre post ids r, tr = pre ++ EStore ids r :: post ->
  exists pre', p :: pre = pre' ++ [ECopy ids (Status true)].
Proof.
  intros Hg pre. revert p tr Hg.
  induction pre as [|x pre IH]; intros p tr Hg post ids r ->; simpl in Hg.
  - apply andb_prop in Hg as [Hc _]. exists [].
    destruct p; try discriminate. destruct r0 as [[|]|]; try discriminate.
    simpl in Hc. destruct (list_eq_dec Nat.eq_dec ids0 ids); [subst; reflexivity|discriminate].
  - apply andb_prop in Hg as [_ Hg].
    destruct (IH x _ Hg post ids r eq_refl) as [pre' Hpre].
    exists (p :: pre'). rewrite Hpre. reflexivity.
Qed.

Lemma attempt_step_facts e b k c :
  let '(tr, r) := attempt_step e b k c in
  existsb is_expunge tr = false /\
  quiet_after_leave false tr = true /\
  length (filter is_copy tr) = 1 /\
  (exists r0, hd_error tr = Some (ECopy c r0)) /\
  match r with
  | ABreak => existsb succ_ev tr = true /\ existsb leave_ev tr = false
  | AContinue => existsb succ_ev tr = false /\ existsb leave_ev tr = false
  | ARaise x => existsb leave_ev tr = true
  end.
Proof.
  unfold attempt_step.
  destruct (copy_result e b k) as [[|]|x].
  - destruct (store_result e b k) as [[|]|x]; simpl;
      [| |destruct (leaves_attempt x) eqn:Hx]; simpl; rewrite ?Hx;
      repeat split; eauto; simpl; rewrite ?Hx; reflexivity.
  - simpl. repeat split; eauto.
  - destruct (leaves_attempt x) eqn:Hx; simpl; rewrite Hx; repeat split; eauto.
Qed.

Lemma quiet_app s a b :
  quiet_after_leave s (a ++ b) =
  quiet_after_leave s a && quiet_after_leave (s || existsb leave_ev a) b.
Proof.
  revert s. induction a as [|x a IH]; intros s; simpl.
  - now rewrite orb_false_r.
  - rewrite IH, orb_assoc, andb_assoc. reflexivity.
Qed.

Lemma batch_loop_facts e b c n : forall k,
  let '(tr, r) := batch_loop e b c k n in
  existsb is_expunge tr = false /\
  quiet_after_leave false tr = true /\
  (1 <= n -> exists r0, In (ECopy c r0) tr) /\
  match r with
  | BSuccess => existsb succ_ev tr = true /\ existsb leave_ev tr = false
  | BFailed => existsb succ_ev tr = false /\ existsb leave_ev tr = false /\
               length (filter is_copy tr) = n
  | BRaise x => existsb leave_ev tr = true
  end.
Proof.
  induction n as [|n IH]; intros k; simpl.
  - repeat split; try lia.
  - pose proof (attempt_step_facts e b k c) as Ha.
    destruct (attempt_step e b k c) as [tr r].
    destruct Ha as (Hx & Hq & Hc & [r0 Hhd] & Hr).
    assert (Hin : In (ECopy c r0) tr) by (destruct tr; simpl in Hhd; inversion Hhd; now left).
    destruct r.
    + repeat split; eauto; apply Hr.
    + specialize (IH (S k)).
      destruct (batch_loop e b c (S k) n) as [tr' r'].
      destruct IH as (Ix & Iq & _ & Ir).
      destruct Hr as [Hs Hab].
      assert (Hsl : forall sl, existsb is_expunge sl = false -> existsb leave_ev sl = false ->
                existsb succ_ev sl = false -> quiet_after_leave false sl = true ->
                filter is_copy sl = [] ->
                let t := tr ++ sl ++ tr' in
                existsb is_expunge t = false /\ quiet_after_leave false t = true /\
                (1 <= S n -> exists r1, In (ECopy c r1) t) /\
                match r' with
                | BSuccess => existsb succ_ev t = true /\ existsb leave_ev t = false
                | BFailed => existsb succ_ev t = false /\ existsb leave_ev t = false /\
                             length (filter is_copy t) = S n
                | BRaise x => existsb leave_ev t = true
                end).
      { intros sl Sx Sa Ss Sq Sc t. subst t.
        rewrite !existsb_app, !quiet_app, ?existsb_app, Hx, Sx, Ix, Hq, Hab, Sa. simpl.
        rewrite Sq, Iq. repeat split; [exists r0; apply in_or_app; now left|].
        destruct r'; rewrite ?Hs, ?Ss; simpl; try exact Ir.
        destruct Ir as (I1 & I2 & I3). repeat split; auto.
        rewrite !filter_app, !length_app, Sc, I3, Hc. reflexivity. }
      destruct (k <? retries e - 1); [destruct (sleep_result e b k) as [x|]|].
      * rewrite !existsb_app, quiet_app, Hx, Hq, Hab. simpl.
        repeat split. exists r0. apply in_or_app. now left.
      * apply (Hsl [ESleep None]); reflexivity.
      * apply (Hsl []); reflexivity.
    + repeat split; eauto; apply Hr.
Qed.

Lemma chunk_loop_facts e cs : forall b s0, Forall (fun c => c <> []) cs ->
  let '(tr, succ, o) := chunk_loop e cs b s0 in
  existsb is_expunge tr = false /\
  quiet_after_leave false tr = true /\
  match o with
  | None => existsb leave_ev tr = false /\
            (0 <? succ) = (0 <? s0) || existsb succ_ev tr /\
            (1 <= retries e -> forall c, In c cs -> exists r, In (ECopy c r) tr)
  | Some x => existsb leave_ev tr = true
  end.
Proof.
  induction cs as [|c cs IH]; intros b s0 Hne; simpl.
  - split; [reflexivity|split; [reflexivity|split; [reflexivity|split; [now rewrite orb_false_r|intros _ c' []]]]].
  - inversion Hne as [|? ? Hc Hne']; subst.
    pose proof (batch_loop_facts e b c (retries e) 0) as Hb.
    destruct (batch_loop e b c 0 (retries e)) as [tr r].
    destruct Hb as (Bx & Bq & Bc & Br).
    destruct r.
    + specialize (IH (S b) (s0 + length c) Hne').
      destruct (chunk_loop e cs (S b) (s0 + length c)) as [[tr' succ] o].
      destruct IH as (Ix & Iq & Io). destruct Br as [Bs Ba].
      rewrite existsb_app, quiet_app, Bx, Ix, Bq, Ba. simpl. split; [reflexivity|split; [exact Iq|]].
      destruct o; [rewrite existsb_app, Ba; exact Io|]. destruct Io as (Ia & Is & Icp).
      rewrite existsb_app, Ba, Ia, existsb_app, Bs. split; [reflexivity|split].
      * rewrite Is. destruct c as [|i c]; [contradiction|].
        replace (0 <? s0 + length (i :: c)) with true by (symmetry; apply Nat.ltb_lt; simpl; lia).
        now rewrite orb_true_r.
      * intros Hr c' [<-|Hin]; [destruct (Bc Hr) as [r0 H]; exists r0; apply in_or_app; now left|].
        destruct (Icp Hr c' Hin) as [r0 H]. exists r0. apply in_or_app. now right.
    + specialize (IH (S b) s0 Hne').
      destruct (chunk_loop e cs (S b) s0) as [[tr' succ] o].
      destruct IH as (Ix & Iq & Io). destruct Br as (Bs & Ba & _).
      rewrite existsb_app, quiet_app, Bx, Ix, Bq, Ba. simpl. split; [reflexivity|split; [exact Iq|]].
      destruct o; [rewrite existsb_app, Ba; exact Io|]. destruct Io as (Ia & Is & Icp).
      rewrite existsb_app, Ba, Ia, existsb_app, Bs. split; [reflexivity|split].
      * exact Is.
      * intros Hr c' [<-|Hin]; [destruct (Bc Hr) as [r0 H]; exists r0; apply in_or_app; now left|].
        destruct (Icp Hr c' Hin) as [r0 H]. exists r0. apply in_or_app. now right.
    + repeat split; try assumption; apply Br.
Qed.

Lemma chunk_loop_no_retries e cs : forall b s0,
  retries e = 0 -> fst (fst (chunk_loop e cs b s0)) = [].
Proof.
  induction cs as [|c cs IH]; intros b s0 H0; simpl; [reflexivity|].
  rewrite H0. simpl. specialize (IH (S b) s0 H0).
  destruct (chunk_loop e cs (S b) s0) as [[tr' n] o]. exact IH.
Qed.

Lemma nomut_facts tr : existsb active_event tr = false ->
  existsb is_expunge tr = false /\ existsb succ_ev tr = false /\
  existsb leave_ev tr = false /\ (forall s, quiet_after_leave s tr = true) /\
  filter is_expunge tr = [].
Proof.
  induction tr as [|ev tr IH]; simpl; [auto|].
  intros H. apply orb_false_elim in H as [Hm H].
  destruct (IH H) as (I1 & I2 & I3 & I4 & I5).
  destruct ev; try discriminate; simpl; rewrite ?I1, ?I2, ?I3, ?I4, ?I5;
    repeat split; intros; rewrite ?I4, ?orb_true_r; reflexivity.
Qed.

Lemma run_props_nomut e tr : existsb active_event tr = false -> run_props e tr.
Proof.
  intros H. destruct (nomut_facts tr H) as (I1 & I2 & I3 & I4 & I5).
  unfold run_props. rewrite I1, I2, I3, I4, I5. simpl.
  repeat split; try lia; intros; discriminate.
Qed.

Lemma run_props_prefix e P tr :
  existsb active_event P = false -> run_props e tr -> run_props e (P ++ tr).
Proof.
  intros HP (R1 & R2 & R3 & R4 & R5).
  destruct (nomut_facts P HP) as (I1 & I2 & I3 & I4 & I5).
  unfold run_props. rewrite filter_app, !existsb_app, quiet_app, I1, I2, I3, I4, I5. simpl.
  split; [exact R1|split; [exact R2|split; [exact R3|split]]].
  - intros He c Hc. destruct (R4 He c Hc) as [r Hr]. exists r. apply in_or_app. now right.
  - intros He. destruct (R5 He) as (pre & -> & Hpre). exists (P ++ pre).
    rewrite <- app_assoc, existsb_app, I1, Hpre. split; reflexivity.
Qed.

Lemma cleanup_inert e m : existsb active_event (fst (cleanup e m)) = false.
Proof. unfold cleanup. destruct m; [| |destruct (close_result e)]; reflexivity. Qed.

Lemma cleanup_nomut e m : existsb is_mutating (fst (cleanup e m)) = false.
Proof. unfold cleanup. destruct m; [| |destruct (close_result e)]; reflexivity. Qed.

Ltac nomut := apply run_props_nomut; rewrite ?existsb_app, ?cleanup_inert; reflexivity.

Lemma after_login_props e :
  let '(tr, r, n, m) := after_login e in run_props e (tr ++ fst (cleanup e m)).
Proof.
  destruct (nomut_facts _ (cleanup_inert e Selected)) as (K1 & K2 & K3 & K4 & K5).
  unfold after_login.
  destruct (select_result e) as [[|]|x]; try nomut.
  destruct (search_result e) as [[|]|x]; try nomut.
  destruct (search_ids e) as [|i is] eqn:Hids; [nomut|].
  destruct (dry_run e); [nomut|].
  pose proof (chunk_loop_facts e (Planner.chunks chunk_size (i :: is)) 0 0
                (PlannerFacts.chunks_nonempty chunk_size (i :: is) ltac:(unfold chunk_size; lia)))
    as Hc.
  pose proof (chunk_loop_no_retries e (Planner.chunks chunk_size (i :: is)) 0 0) as Hz.
  destruct (chunk_loop e (Planner.chunks chunk_size (i :: is)) 0 0) as [[L n] o].
  simpl in Hz. destruct Hc as (Cx & Cq & Co).
  assert (HL : length (filter is_expunge L) = 0).
  { clear -Cx. induction L as [|ev L IH]; simpl in *; [reflexivity|].
    apply orb_false_elim in Cx as [H1 H2]. rewrite H1. auto. }
  destruct o as [x|].
  - rename Co into Ca.
    rewrite <- !app_assoc. apply run_props_prefix; [reflexivity|].
    unfold run_props. rewrite !filter_app, !length_app, !existsb_app, !quiet_app.
    rewrite Cx, Ca, Cq, HL, K1, K4, K5. simpl.
    rewrite andb_false_r. repeat split; try lia; intros; discriminate.
  - destruct Co as (Ca & Cs & Cp). simpl in Cs. rewrite Cs.
    destruct (existsb succ_ev L) eqn:Hs.
    + rewrite <- !app_assoc. apply run_props_prefix; [reflexivity|].
      unfold run_props. rewrite !filter_app, !length_app, !existsb_app, !quiet_app.
      rewrite Cx, Ca, Cq, HL, Hs, K1, K2, K3, K4, K5. simpl. rewrite Hids.
      split; [lia|split; [reflexivity|split; [reflexivity|split]]].
      * intros _ c Hin.
        assert (Hr : 1 <= retries e).
        { destruct (retries e) eqn:R; [|lia]. rewrite (Hz eq_refl) in Hs. discriminate. }
        destruct (Cp Hr c Hin) as [r Hr']. exists r. apply in_or_app. now left.
      * intros _. exists L. split; [reflexivity|exact Cx].
    + rewrite <- !app_assoc. apply run_props_prefix; [reflexivity|].
      unfold run_props. rewrite !filter_app, !length_app, !existsb_app, !quiet_app.
      rewrite Cx, Ca, Cq, HL, Hs, K1, K2, K3, K4, K5. simpl.
      repeat split; try lia; intros; discriminate.
Qed.

Lemma after_connect_props e tr0 :
  existsb active_event tr0 = false ->
  let '(tr, r, n, m) := after_connect e tr0 in run_props e (tr ++ fst (cleanup e m)).
Proof.
  intros H0. unfold after_connect.
  destruct (login_result e) as [x|].
  - destruct (is_imap_error x); apply run_props_nomut;
      rewrite !existsb_app, H0, cleanup_inert; reflexivity.
  - pose proof (after_login_props e) as Hl.
    destruct (after_login e) as [[[tr r] n] m].
    rewrite <- !app_assoc. apply run_props_prefix; [exact H0|].
    apply run_props_prefix; [reflexivity|exact Hl].
Qed.

Lemma run_props_run e : run_props e (events (move_to_trash_explicit_fast e)).
Proof.
  rewrite run_events.
  destruct (args_result e); try nomut.
  destruct (creds_set e); [|nomut].
  assert (Hb : let '(tr, r, n, m) := body e in run_props e (tr ++ fst (cleanup e m))).
  { unfold body. destruct (connect_result e) as [[]|];
      try nomut; try (apply after_connect_props; reflexivity).
    destruct (fallback_result e); [nomut|].
    apply after_connect_props; reflexivity. }
  destruct (body e) as [[[tr r] n] m]. exact Hb.
Qed.

Lemma succ_ev_iff tr : existsb succ_ev tr = true <-> chunk_succeeded tr.
Proof.
  rewrite existsb_exists. unfold chunk_succeeded. split.
  - intros [ev [Hin Hs]].
    destruct ev as [| | | |c r|ids r| | | |]; try discriminate.
    destruct r as [[|]|x]; try discriminate. exists ids. exact Hin.
  - intros [ids Hin]. exists (EStore ids (Status true)). split; [exact Hin|reflexivity].
Qed.

Lemma leave_ev_iff tr : existsb leave_ev tr = true <-> loop_left tr.
Proof. rewrite existsb_exists. reflexivity. Qed.

Lemma expunge_iff tr : existsb is_expunge tr = true <-> In EExpunge tr.
Proof.
  rewrite existsb_exists. split.
  - intros [ev [Hin He]]. destruct ev; try discriminate. exact Hin.
  - intros Hin. exists EExpunge. split; [exact Hin|reflexivity].
Qed.





Lemma zero_match_run e : search_ids e = [] ->
  existsb is_mutating (events (move_to_trash_explicit_fast e)) = false /\
  success_count (move_to_trash_explicit_fast e) = 0.
Proof.
  intros Hids. rewrite run_events, run_success.
  destruct (args_result e); [|auto|auto].
  destruct (creds_set e); [|auto].
  unfold body, after_connect, after_login. cbv zeta. rewrite Hids.
  destruct (connect_result e) as [[]|]; try destruct (fallback_result e);
    try destruct (login_result e) as [x|]; try destruct (is_imap_error x);
    try destruct (select_result e) as [[]|]; try destruct (search_result e) as [[]|];
    cbn -[cleanup]; rewrite ?cleanup_nomut; auto.
Qed.


End TrashFacts.

Module TrashExtraFacts.
Import Trash TrashFacts.


Lemma stored_ok_total_app a b :
  stored_ok_total (a ++ b) = stored_ok_total a + stored_ok_total b.
Proof.
  induction a as [|ev a IH]; simpl; [reflexivity|].
  destruct ev as [| | | |c r|ids [[|]|x]| | | |]; simpl; rewrite ?IH; lia.
Qed.

Lemma cleanup_stored e m : stored_ok_total (fst (cleanup e m)) = 0.
Proof. unfold cleanup. destruct m; [| |destruct (close_result e)]; reflexivity. Qed.

Ltac csimp := cbn -[cleanup];
  rewrite ?stored_ok_total_app, ?existsb_app, ?cleanup_stored, ?cleanup_nomut; cbn -[cleanup].

Lemma no_sleep_in tr : length (filter is_sleep tr) = 0 -> forall r, ~ In (ESleep r) tr.
Proof.
  intros H r Hin. assert (In (ESleep r) (filter is_sleep tr)) as Hf
    by (apply filter_In; split; [exact Hin|reflexivity]).
  destruct (filter is_sleep tr); [contradiction|discriminate].
Qed.

Lemma attempt_step_stats e b k c :
  let '(tr, r) := attempt_step e b k c in
  stored_ok_total tr = match r with ABreak => length c | _ => 0 end /\
  length (filter is_sleep tr) = 0 /\ length (filter is_copy tr) = 1 /\
  forallb loop_event tr = true /\ length (filter sleep_returned tr) = 0.
Proof.
  unfold attempt_step.
  destruct (copy_result e b k) as [[|]|x];
    [destruct (store_result e b k) as [[|]|x]| |]; simpl;
    try destruct (leaves_attempt x); simpl; auto.
Qed.

Lemma batch_loop_stats e b c n : forall k, k + n = retries e ->
  let '(tr, r) := batch_loop e b c k n in
  stored_ok_total tr = match r with BSuccess => length c | _ => 0 end /\
  (1 <= n -> length (filter sleep_returned tr) + 1 = length (filter is_copy tr)) /\
  forallb loop_event tr = true /\
  length (filter is_sleep tr) <= n - 1 /\
  (forall x, In (ESleep (Some x)) tr -> r = BRaise x /\ exists pre, tr = pre ++ [ESleep (Some x)]).
Proof.
  induction n as [|n IH]; intros k Hk; simpl.
  - repeat split; try lia; intros x [].
  - pose proof (attempt_step_stats e b k c) as Ha.
    destruct (attempt_step e b k c) as [tr r].
    destruct Ha as (A1 & A2 & A3 & A4 & A5).
    assert (Hns : forall x, ~ In (ESleep x) tr) by (apply no_sleep_in; exact A2).
    destruct r.
    + refine (conj _ (conj _ (conj _ (conj _ _)))); auto; try lia.
      intros y Hin. exfalso. exact (Hns _ Hin).
    + destruct (Nat.ltb_spec k (retries e - 1)) as [Hlt|Hge].
      * specialize (IH (S k) ltac:(lia)).
        destruct (sleep_result e b k) as [x|].
        -- rewrite !stored_ok_total_app, !filter_app, !length_app, !forallb_app, A1, A2, A3, A4, A5.
           simpl. refine (conj _ (conj _ (conj _ (conj _ _)))); try lia; try reflexivity.
           intros y Hin. apply in_app_iff in Hin as [Hin|[Hy|[]]]; [exfalso; exact (Hns _ Hin)|].
           injection Hy as <-. split; [reflexivity|exists tr; reflexivity].
        -- destruct (batch_loop e b c (S k) n) as [tr' r'].
           destruct IH as (I1 & I2 & I3 & I4 & I5).
           rewrite !stored_ok_total_app, !filter_app, !length_app, !forallb_app, A1, A2, A3, A4, A5.
           simpl. rewrite I3.
           split; [destruct r'; simpl in I1; lia|split; [intros _; specialize (I2 ltac:(lia)); lia|]].
           split; [reflexivity|split; [lia|]].
           intros y Hin. apply in_app_iff in Hin as [Hin|[Hy|Hin]];
             [exfalso; exact (Hns _ Hin)|discriminate|].
           destruct (I5 y Hin) as [-> [pre ->]]. split; [reflexivity|].
           exists (tr ++ ESleep None :: pre). rewrite <- app_assoc. reflexivity.
      * assert (n = 0) by lia. subst n. simpl.
        rewrite !app_nil_r, A1, A2, A3, A4, A5.
        refine (conj _ (conj _ (conj _ (conj _ _)))); try lia; try reflexivity.
        intros y Hin. exfalso. exact (Hns _ Hin).
    + refine (conj _ (conj _ (conj _ (conj _ _)))); auto; try lia.
      intros y Hin. exfalso. exact (Hns _ Hin).
Qed.

Lemma chunk_loop_stats e cs : forall b s0,
  let '(tr, succ, o) := chunk_loop e cs b s0 in
  succ = s0 + stored_ok_total tr /\ succ <= s0 + length (concat cs) /\
  forallb loop_event tr = true.
Proof.
  induction cs as [|c cs IH]; intros b s0; simpl.
  - repeat split; lia.
  - pose proof (batch_loop_stats e b c (retries e) 0 eq_refl) as Hb.
    destruct (batch_loop e b c 0 (retries e)) as [tr r].
    destruct Hb as (B1 & _ & B3 & _).
    rewrite length_app.
    destruct r.
    + specialize (IH (S b) (s0 + length c)).
      destruct (chunk_loop e cs (S b) (s0 + length c)) as [[tr' succ] o].
      destruct IH as (I1 & I2 & I3).
      rewrite stored_ok_total_app, forallb_app, B1, B3, I3. repeat split; lia.
    + specialize (IH (S b) s0).
      destruct (chunk_loop e cs (S b) s0) as [[tr' succ] o].
      destruct IH as (I1 & I2 & I3).
      rewrite stored_ok_total_app, forallb_app, B1, B3, I3. repeat split; lia.
    + rewrite B1, B3. repeat split; lia.
Qed.

Lemma chunks_concat {A} (C : nat) (ids : list A) :
  1 <= C -> concat (Planner.chunks C ids) = ids.
Proof.
  intros HC. unfold Planner.chunks, Planner.range_step.
  rewrite PlannerFacts.range_go_concat by lia. reflexivity.
Qed.

Lemma after_login_stats e :
  let '(tr, r, n, m) := after_login e in
  n = stored_ok_total (tr ++ fst (cleanup e m)) /\ n <= length (search_ids e).
Proof.
  unfold after_login. cbv zeta.
  destruct (select_result e) as [[|]|x]; [|csimp; split; [reflexivity|lia]..].
  destruct (search_result e) as [[|]|x]; [|csimp; split; [reflexivity|lia]..].
  destruct (search_ids e) as [|i is] eqn:Hids; [csimp; split; [reflexivity|lia]|].
  destruct (dry_run e); [csimp; split; [reflexivity|lia]|].
  pose proof (chunk_loop_stats e (Planner.chunks chunk_size (i :: is)) 0 0) as Hc.
  rewrite chunks_concat in Hc by (unfold chunk_size; lia).
  destruct (chunk_loop e (Planner.chunks chunk_size (i :: is)) 0 0) as [[L n] o].
  destruct Hc as (C1 & C2 & _).
  destruct o as [x|]; [|destruct (0 <? n)];
    rewrite <- ?app_assoc, !stored_ok_total_app, ?cleanup_stored; simpl; split; simpl in C2; lia.
Qed.

Lemma run_stats e :
  success_count (move_to_trash_explicit_fast e) =
    stored_ok_total (events (move_to_trash_explicit_fast e)) /\
  success_count (move_to_trash_explicit_fast e) <= length (search_ids e).
Proof.
  rewrite run_events, run_success.
  destruct (args_result e); [|split; [reflexivity|lia]..].
  destruct (creds_set e); [|split; [reflexivity|lia]].
  assert (Hc : forall tr0, stored_ok_total tr0 = 0 ->
    let '(tr, r, n, m) := after_connect e tr0 in
    n = stored_ok_total (tr ++ fst (cleanup e m)) /\ n <= length (search_ids e)).
  { intros tr0 H0. unfold after_connect. destruct (login_result e) as [x|].
    - destruct (is_imap_error x); rewrite <- app_assoc, stored_ok_total_app, H0;
        csimp; split; lia.
    - pose proof (after_login_stats e) as Hl.
      destruct (after_login e) as [[[tr r] n] m].
      rewrite <- !app_assoc, !stored_ok_total_app, H0. simpl.
      rewrite <- stored_ok_total_app. exact Hl. }
  unfold body. destruct (connect_result e) as [[]|];
    try (csimp; split; [reflexivity|lia]).
  - destruct (fallback_result e); [csimp; split; [reflexivity|lia]|].
    specialize (Hc [EConnect; EConnect] eq_refl).
    destruct (after_connect e [EConnect; EConnect]) as [[[tr r] n] m]. exact Hc.
  - specialize (Hc [EConnect] eq_refl).
    destruct (after_connect e [EConnect]) as [[[tr r] n] m]. exact Hc.
Qed.

(** A run whose part from the SELECT on issues no COPY, STORE or EXPUNGE
    and moves nothing, issues none at all and moves nothing. *)
Lemma run_nomut_of_after_login e :
  (let '(tr, r, n, m) := after_login e in
   existsb is_mutating (tr ++ fst (cleanup e m)) = false /\ n = 0) ->
  existsb is_mutating (events (move_to_trash_explicit_fast e)) = false /\
  success_count (move_to_trash_explicit_fast e) = 0.
Proof.
  intros Hl. rewrite run_events, run_success.
  destruct (args_result e); [|auto..].
  destruct (creds_set e); [|auto].
  assert (Hc : forall tr0, existsb is_mutating tr0 = false ->
    let '(tr, r, n, m) := after_connect e tr0 in
    existsb is_mutating (tr ++ fst (cleanup e m)) = false /\ n = 0).
  { intros tr0 H0. unfold after_connect. destruct (login_result e) as [x|].
    - destruct (is_imap_error x); rewrite !existsb_app, H0; csimp; auto.
    - destruct (after_login e) as [[[tr r] n] m].
      rewrite <- !app_assoc, !existsb_app, H0. simpl.
      rewrite <- existsb_app. exact Hl. }
  unfold body. destruct (connect_result e) as [[]|]; try (csimp; auto).
  - destruct (fallback_result e); [csimp; auto|].
    specialize (Hc [EConnect; EConnect] eq_refl).
    destruct (after_connect e [EConnect; EConnect]) as [[[tr r] n] m]. exact Hc.
  - specialize (Hc [EConnect] eq_refl).
    destruct (after_connect e [EConnect]) as [[[tr r] n] m]. exact Hc.
Qed.

Lemma dry_run_after_login e : dry_run e = true ->
  let '(tr, r, n, m) := after_login e in
  existsb is_mutating (tr ++ fst (cleanup e m)) = false /\ n = 0.
Proof.
  intros Hd. unfold after_login. cbv zeta. rewrite Hd.
  destruct (select_result e) as [[|]|x]; csimp; auto.
  destruct (search_result e) as [[|]|x]; csimp; auto.
  destruct (search_ids e); csimp; auto.
Qed.

Lemma no_retries_after_login e : retries e = 0 ->
  let '(tr, r, n, m) := after_login e in
  existsb is_mutating (tr ++ fst (cleanup e m)) = false /\ n = 0.
Proof.
  intros H0. unfold after_login. cbv zeta.
  destruct (select_result e) as [[|]|x]; [|csimp; auto..].
  destruct (search_result e) as [[|]|x]; [|csimp; auto..].
  destruct (search_ids e) as [|i is]; [csimp; auto|].
  destruct (dry_run e); [csimp; auto|].
  pose proof (chunk_loop_no_retries e (Planner.chunks chunk_size (i :: is)) 0 0 H0) as Hz.
  pose proof (chunk_loop_stats e (Planner.chunks chunk_size (i :: is)) 0 0) as Hs.
  destruct (chunk_loop e (Planner.chunks chunk_size (i :: is)) 0 0) as [[L n] o].
  simpl in Hz. subst L. destruct Hs as (Hn & _). simpl in Hn. subst n.
  destruct o; csimp; auto.
Qed.











(** The events of a run whose SEARCH returned OK with no identifier. *)
Lemma zero_match_events e : search_succeeds e -> search_ids e = [] ->
  exists P, events (move_to_trash_explicit_fast e) =
    P ++ [ELogin; ESelect; ESearch] ++ fst (cleanup e Selected) /\
    (P = [EConnect] \/ P = [EConnect; EConnect]).
Proof.
  intros (Ha & Hc & Hconn & Hl & Hsel & Hse) Hids.
  rewrite run_events, Ha, Hc. unfold body, after_connect, after_login.
  rewrite Hl, Hsel, Hse, Hids. cbv zeta.
  destruct Hconn as [H|[H Hf]]; rewrite H; [|rewrite Hf];
    [exists [EConnect]|exists [EConnect; EConnect]]; (split; [reflexivity|auto]).
Qed.

End TrashExtraFacts.

Module TrashClaims.
Import Trash TrashFacts TrashExtraFacts.

(** C1: in every run of [move_to_trash_explicit_fast], every STORE of the
    deletion flag on an ID set is issued right after a COPY of that same ID
    set to the trash folder that returned OK: within one attempt the STORE
    follows the COPY, and a retried attempt starts again with the COPY. *)
Theorem store_after_copy (e : env) :
  flag_follows_copy (events (move_to_trash_explicit_fast e)).
Proof.
  intros pre post ids r Htr.
  destruct (store_guarded_prefix EConnect _ (run_guarded e EConnect) pre post ids r Htr)
    as [pre' Hpre].
  destruct pre' as [|x pre']; simpl in Hpre; injection Hpre as Hx Hpre; [discriminate|].
  exists pre'. exact Hpre.
Qed.

(** C2 (counterexample): in a run of three batches where batch 0 is copied
    and flagged and the COPY of batch 1 raises [IMAP4.abort], a chunk
    succeeded, yet no EXPUNGE is issued: the abort leaves the loop for the
    outer [except Exception]. *)
Lemma success_without_expunge :
  ~ expunge_iff_success (events (move_to_trash_explicit_fast abort_second_batch_env)).
Proof.
  unfold expunge_iff_success. intros [_ H].
  assert (Hs : chunk_succeeded (events (move_to_trash_explicit_fast abort_second_batch_env)))
    by (apply succ_ev_iff; vm_compute; reflexivity).
  specialize (H Hs). vm_compute in H. discriminate.
Qed.

(** C2 (amended): in every run, EXPUNGE is issued at most once. It is
    issued iff some chunk succeeded (its COPY and its STORE returned OK)
    and no exception left the batch loop: no COPY or STORE raised
    [IMAP4.abort] or [KeyboardInterrupt], and no [time.sleep] between two
    attempts raised ([ValueError] for a negative [--delay],
    [KeyboardInterrupt]). When it is issued, every chunk had its COPY
    issued, and only the [finally] clause's CLOSE and (unless CLOSE
    raised) LOGOUT follow it. With no successful chunk no EXPUNGE is
    issued. *)
Theorem expunge_gating (e : env) :
  let tr := events (move_to_trash_explicit_fast e) in
  length (filter is_expunge tr) <= 1 /\
  (In EExpunge tr <-> chunk_succeeded tr /\ ~ loop_left tr) /\
  (In EExpunge tr ->
     every_chunk_attempted e tr /\
     exists pre, tr = pre ++ EExpunge :: fst (cleanup e Selected) /\ ~ In EExpunge pre).
Proof.
  intros tr. pose proof (run_props_run e) as R. change (run_props e tr) in R.
  destruct R as (R1 & R2 & _ & R4 & R5).
  split; [exact R1|split].
  - rewrite <- expunge_iff, R2, andb_true_iff, negb_true_iff, succ_ev_iff,
      <- not_true_iff_false, leave_ev_iff. reflexivity.
  - intros Hin. apply expunge_iff in Hin. split; [exact (R4 Hin)|].
    destruct (R5 Hin) as (pre & Hpre & Hx). exists pre. split; [exact Hpre|].
    rewrite <- expunge_iff, Hx. discriminate.
Qed.






(** C10 (code bug): when the SEARCH returns OK with no identifier, the
    run issues no COPY, STORE or EXPUNGE and its success count is 0, yet
    the [finally] clause CLOSEs the read-write selected mailbox; when that
    CLOSE returns, it has purged every message already flagged [\Deleted]
    from the source folder. *)
Theorem zero_match_close_purges (e : env) :
  search_succeeds e -> search_ids e = [] -> close_result e = None ->
  let r := move_to_trash_explicit_fast e in
  (forall ev, In ev (events r) -> is_mutating ev = false) /\
  success_count r = 0 /\
  In (EClose None) (events r) /\
  forall f, apply_events f (events r) = mk_folders (purge (source f)) (trash_folder f).
Proof.
  intros Hs Hids Hcl r.
  destruct (zero_match_run e Hids) as [Hm Hsc].
  destruct (zero_match_events e Hs Hids) as (P & Hev & HP).
  unfold cleanup in Hev. rewrite Hcl in Hev. cbn [fst] in Hev.
  split; [|split; [exact Hsc|split]].
  - intros ev Hin. destruct (is_mutating ev) eqn:He; [|reflexivity].
    assert (existsb is_mutating (events r) = true) as Ht
      by (apply existsb_exists; exists ev; split; assumption).
    unfold r in Ht. rewrite Hm in Ht. discriminate.
  - unfold r. rewrite Hev. apply in_or_app. right. simpl. tauto.
  - intros f. unfold r. rewrite Hev. destruct HP as [-> | ->]; reflexivity.
Qed.

Lemma zero_match_close_purges_witness :
  search_succeeds no_match_env /\ search_ids no_match_env = [] /\
  close_result no_match_env = None /\
  source (apply_events flagged_leftover (events (move_to_trash_explicit_fast no_match_env))) = [].
Proof.
  assert (Hs : search_succeeds no_match_env).
  { unfold search_succeeds. simpl. split; [reflexivity|split; [reflexivity|]].
    split; [left; reflexivity|repeat split]. }
  split; [exact Hs|split; [reflexivity|split; [reflexivity|]]].
  destruct (zero_match_close_purges no_match_env Hs eq_refl eq_refl) as (_ & _ & _ & Hf).
  rewrite Hf. vm_compute. reflexivity.
Defined.

End TrashClaims.

Module CountClaims.
Import Count.

(** C6 (code bug): a [fetch_chunk] started once the shutdown flag is set
    issues no protocol command; but when the folder cannot be selected,
    [list_top_senders] returns from its [try] block right after the SELECT,
    so [main_conn] (session 0), opened during the run and never registered
    in [active_connections], is never logged out, while on the success path
    every session, [main_conn] included, is logged out. *)
Theorem main_conn_left_open :
  (forall w fresh chunk, fetch_chunk true w fresh chunk = ([], w)) /\
  In (EOpen 0) (list_top_senders missing_folder_env) /\
  ~ In (ELogout 0) (list_top_senders missing_folder_env) /\
  ~ every_session_logged_out (list_top_senders missing_folder_env) /\
  every_session_logged_out (list_top_senders two_chunks_env).
Proof.
  split; [intros; reflexivity|].
  assert (Hm : list_top_senders missing_folder_env = [EOpen 0; ESelect 0]) by reflexivity.
  rewrite Hm. split; [left; reflexivity|]. split.
  - intros [H|[H|[]]]; discriminate.
  - split.
    + intros H. destruct (H 0 ltac:(left; reflexivity)) as [H'|[H'|[]]]; discriminate.
    + assert (Ht : list_top_senders two_chunks_env =
              [EOpen 0; ESelect 0; ESearch 0; ELogout 0; EOpen 1; ESelect 1; EFetch 1;
               EOpen 2; ESelect 2; EFetch 2; ELogout 1; ELogout 2]) by (vm_compute; reflexivity).
      rewrite Ht. intros sid Hin. simpl in Hin.
      repeat (destruct Hin as [H|Hin]; [try discriminate; injection H as <-; simpl; tauto|]).
      destruct Hin.
Qed.

End CountClaims.

Module CensusClaims.
Import Census CensusFacts.

(** C8 (counterexample): the imap_count.py census reports a sender with
    5 messages, below the threshold of 10 (on an ASCII address, where
    Python's [str.lower] is [lower]). *)
Lemma census_count_below_ten :
  ~ meets_threshold (census_count lower (repeat "d@w.com"%string 5)).
Proof.
  intros H. specialize (H "d@w.com"%string 5).
  assert (10 <= 5) by (apply H; vm_compute; left; reflexivity). lia.
Qed.

(** C8 (amended): both census variants report every lower-cased sender
    address whose count passes the variant's threshold, with its exact
    count, once each, in order of non-increasing count, and nothing else;
    the threshold is [count >= 10] in imap_delete.py and [count > 1] in
    imap_count.py, whose lower-casing is Python's Unicode [str.lower]
    (here any function [str_lower]). On the 250-message scenario both
    report a@x.com 150, b@y.com 80, c@z.com 20, in that order (for
    imap_count.py, with any [str_lower] that leaves these three lower-case
    addresses unchanged, as [str.lower] does). *)
Theorem census_spec (str_lower : string -> string) (addresses : list string) :
  (Sorted desc (census_delete addresses) /\
   NoDup (map fst (census_delete addresses)) /\
   (forall a n, In (a, n) (census_delete addresses) <->
      In a (map lower addresses) /\ n = count_occ string_dec (map lower addresses) a /\
      10 <= n)) /\
  (Sorted desc (census_count str_lower addresses) /\
   NoDup (map fst (census_count str_lower addresses)) /\
   (forall a n, In (a, n) (census_count str_lower addresses) <->
      In a (map str_lower addresses) /\ n = count_occ string_dec (map str_lower addresses) a /\
      2 <= n)) /\
  census_delete scenario = scenario_report /\
  (str_lower "a@x.com"%string = "a@x.com"%string ->
   str_lower "b@y.com"%string = "b@y.com"%string ->
   str_lower "c@z.com"%string = "c@z.com"%string ->
   census_count str_lower scenario = scenario_report).
Proof.
  split; [|split; [|split]].
  - destruct (census_spec_gen lower (fun c => MINIMUM_COUNT <=? c) addresses) as (H1 & H2 & H3).
    split; [exact H1|split; [exact H2|]].
    intros a n. rewrite H3. unfold MINIMUM_COUNT.
    rewrite Nat.leb_le. reflexivity.
  - destruct (census_spec_gen str_lower (fun c => 1 <? c) addresses) as (H1 & H2 & H3).
    split; [exact H1|split; [exact H2|]].
    intros a n. rewrite H3. rewrite Nat.ltb_lt. split; intros (? & ? & ?); repeat split; auto; lia.
  - vm_compute. reflexivity.
  - intros Ha Hb Hc. unfold census_count, census, scenario.
    rewrite !map_app, !map_repeat, Ha, Hb, Hc. vm_compute. reflexivity.
Qed.

End CensusClaims.


Module TrashExtras.
Import Trash TrashFacts TrashExtraFacts.

(** [success_count] is the number of messages of the batches whose COPY
    and STORE both returned OK, and never exceeds the number of matched
    messages. *)
Theorem success_count_spec (e : env) :
  success_count (move_to_trash_explicit_fast e) =
    stored_ok_total (events (move_to_trash_explicit_fast e)) /\
  success_count (move_to_trash_explicit_fast e) <= length (search_ids e).
Proof. exact (run_stats e). Qed.

(** With [--dry-run] no COPY, STORE or EXPUNGE is issued and nothing is
    counted as moved. *)
Theorem dry_run_no_mutation (e : env) :
  dry_run e = true ->
  (forall ev, In ev (events (move_to_trash_explicit_fast e)) -> is_mutating ev = false) /\
  success_count (move_to_trash_explicit_fast e) = 0.
Proof.
  intros Hd. destruct (run_nomut_of_after_login e (dry_run_after_login e Hd)) as [Hm Hs].
  split; [|exact Hs]. intros ev Hin.
  destruct (is_mutating ev) eqn:He; [|reflexivity].
  rewrite <- Hm. symmetry. apply existsb_exists. exists ev. split; assumption.
Qed.

Lemma dry_run_no_mutation_witness :
  dry_run dry_run_env = true /\ success_count (move_to_trash_explicit_fast dry_run_env) = 0.
Proof.
  split; [reflexivity|]. exact (proj2 (dry_run_no_mutation dry_run_env eq_refl)).
Defined.

(** With [--retries 0] the batch loop makes no attempt: no COPY, STORE or
    EXPUNGE is issued and nothing is counted as moved, although the
    messages were found. *)
Theorem zero_retries_no_mutation (e : env) :
  retries e = 0 ->
  (forall ev, In ev (events (move_to_trash_explicit_fast e)) -> is_mutating ev = false) /\
  success_count (move_to_trash_explicit_fast e) = 0.
Proof.
  intros H0. destruct (run_nomut_of_after_login e (no_retries_after_login e H0)) as [Hm Hs].
  split; [|exact Hs]. intros ev Hin.
  destruct (is_mutating ev) eqn:He; [|reflexivity].
  rewrite <- Hm. symmetry. apply existsb_exists. exists ev. split; assumption.
Qed.

Lemma zero_retries_no_mutation_witness :
  retries no_retries_env = 0 /\ success_count (move_to_trash_explicit_fast no_retries_env) = 0.
Proof.
  split; [reflexivity|]. exact (proj2 (zero_retries_no_mutation no_retries_env eq_refl)).
Defined.




(** A negative [--delay] after a successful batch: the [time.sleep(-1)]
    before the retry of batch 1 raises [ValueError], which leaves the batch
    loop for the outer [except Exception]; the messages of batch 0 were
    copied and flagged, but no EXPUNGE is issued and the run exits with
    status 0. *)
Theorem negative_delay_no_expunge :
  let r := move_to_trash_explicit_fast negative_delay_env in
  chunk_succeeded (events r) /\ In (ESleep (Some ValueError)) (events r) /\
  ~ In EExpunge (events r) /\ success_count r = 100 /\ status r = Exited 0.
Proof.
  cbv zeta. split; [apply succ_ev_iff; vm_compute; reflexivity|].
  split.
  { assert (H : In (ESleep (Some ValueError))
      (filter is_sleep (events (move_to_trash_explicit_fast negative_delay_env))))
      by (vm_compute; left; reflexivity).
    exact (proj1 (proj1 (filter_In _ _ _) H)). }
  split; [rewrite <- expunge_iff; vm_compute; discriminate|].
  split; vm_compute; reflexivity.
Qed.

End TrashExtras.

Module SessionExtraFacts.
Import Session SessionFacts.

Lemma connect_delete_err (w : world) (s : session) e :
  snd (connect_delete w s) = Some e ->
  exists j, open_result w j = Some e \/ login_result w j = Some e \/ select_result w j = Some e.
Proof.
  unfold connect_delete. intros H. exists (connects s).
  destruct (open_result w (connects s)) eqn:Ho; simpl in H; [left; congruence|].
  destruct (login_result w (connects s)) eqn:Hl; simpl in H; [right; left; congruence|].
  destruct (folder_if_set (current_folder s)); simpl in H; [right; right; exact H|discriminate].
Qed.

Lemma retry_loop_delete_provenance (w : world) (n : nat) : forall a s last,
  (forall e0, last = Some e0 -> exists k, k < a /\ op_result w k = Raised e0) ->
  match outcome_of (retry_loop_delete w a n s last) with
  | Return r => exists k, a <= k < a + n /\ op_result w k = Returned r
  | Raise e => (exists k, k < a + n /\ op_result w k = Raised e) \/
               (exists j, open_result w j = Some e \/ login_result w j = Some e \/
                          select_result w j = Some e)
  | RaiseNone => last = None /\ n = 0
  | ReturnAbort => False
  end.
Proof.
  induction n as [|n IH]; intros a s last Hl; unfold outcome_of in *; simpl.
  - destruct last as [e0|]; [|auto]. left. destruct (Hl e0 eq_refl) as (k & Hk & Hr).
    exists k. split; [lia|exact Hr].
  - destruct (op_result w a) as [r|e] eqn:Ha; simpl; [exists a; split; [lia|exact Ha]|].
    assert (Hl' : forall e0, Some e = Some e0 -> exists k, k < S a /\ op_result w k = Raised e0).
    { intros e0 [= <-]. exists a. split; [lia|exact Ha]. }
    destruct (is_connection_error e); [|left; exists a; split; [lia|exact Ha]].
    destruct (a <? retries s - 1).
    + pose proof (connect_delete_err w s) as He.
      destruct (connect_delete w s) as [[tr s1] [e'|]]; simpl in He.
      * simpl. right. exact (He e' eq_refl).
      * specialize (IH (S a) s1 (Some e) Hl').
        destruct (retry_loop_delete w (S a) n s1 (Some e)) as [[tr' s2] o]. simpl in IH |- *.
        destruct o as [r|e1| |]; try exact IH.
        -- destruct IH as (k & Hk & Hr). exists k. split; [lia|exact Hr].
        -- destruct IH as [(k & Hk & Hr)|IH]; [left; exists k; split; [lia|exact Hr]|right; exact IH].
        -- destruct IH as [H _]. discriminate.
    + specialize (IH (S a) s (Some e) Hl').
      destruct (retry_loop_delete w (S a) n s (Some e)) as [[tr' s2] o]. simpl in IH |- *.
      destruct o as [r|e1| |]; try exact IH.
      * destruct IH as (k & Hk & Hr). exists k. split; [lia|exact Hr].
      * destruct IH as [(k & Hk & Hr)|IH]; [left; exists k; split; [lia|exact Hr]|right; exact IH].
      * destruct IH as [H _]. discriminate.
Qed.

Lemma retry_loop_count_provenance (w : world) (n : nat) : forall a s last,
  (forall e0, last = Some e0 -> exists k, k < a /\ op_result w k = Raised e0) ->
  match outcome_of (retry_loop_count w a n s last) with
  | Return r => exists k, a <= k < a + n /\ op_result w k = Returned r
  | Raise e => exists k, k < a + n /\ op_result w k = Raised e
  | RaiseNone => last = None /\ n = 0
  | ReturnAbort => exists k, a <= k < a + n /\ shutdown_at w k = true
  end.
Proof.
  induction n as [|n IH]; intros a s last Hl; unfold outcome_of in *; simpl.
  - destruct last as [e0|]; [|auto]. destruct (Hl e0 eq_refl) as (k & Hk & Hr).
    exists k. split; [lia|exact Hr].
  - destruct (shutdown_at w a) eqn:Hs; [simpl; exists a; split; [lia|exact Hs]|].
    destruct (op_result w a) as [r|e] eqn:Ha; simpl; [exists a; split; [lia|exact Ha]|].
    assert (Hl' : forall e0, Some e = Some e0 -> exists k, k < S a /\ op_result w k = Raised e0).
    { intros e0 [= <-]. exists a. split; [lia|exact Ha]. }
    destruct (is_connection_error e); [|exists a; split; [lia|exact Ha]].
    destruct (a <? retries s - 1).
    + destruct (connect_count w s) as [tr s1].
      specialize (IH (S a) s1 (Some e) Hl').
      destruct (retry_loop_count w (S a) n s1 (Some e)) as [[tr' s2] o]. simpl in IH |- *.
      destruct o as [r|e1| |];
        [destruct IH as (k & Hk & Hr)|destruct IH as (k & Hk & Hr)|destruct IH as [H _]; discriminate|
         destruct IH as (k & Hk & Hr)]; exists k; split; try lia; assumption.
    + specialize (IH (S a) s (Some e) Hl').
      destruct (retry_loop_count w (S a) n s (Some e)) as [[tr' s2] o]. simpl in IH |- *.
      destruct o as [r|e1| |];
        [destruct IH as (k & Hk & Hr)|destruct IH as (k & Hk & Hr)|destruct IH as [H _]; discriminate|
         destruct IH as (k & Hk & Hr)]; exists k; split; try lia; assumption.
Qed.

(** The retry loops keep the remembered folder, mode and budget, and a
    session that had a connection keeps one. *)
Lemma retry_loop_delete_fields (w : world) (n : nat) : forall a s last,
  let s' := snd (fst (retry_loop_delete w a n s last)) in
  current_folder s' = current_folder s /\ readonly s' = readonly s /\
  retries s' = retries s /\ (has_mail s = true -> has_mail s' = true).
Proof.
  induction n as [|n IH]; intros a s last; simpl; [auto|].
  destruct (op_result w a) as [r|e]; simpl; [auto|].
  destruct (is_connection_error e); simpl; [|auto].
  destruct (a <? retries s - 1).
  - pose proof (connect_delete_fields w s) as Hc.
    destruct (connect_delete w s) as [[tr s1] [e'|]]; simpl in Hc |- *;
      destruct Hc as (C1 & C2 & C3 & _ & C5); [intuition|].
    specialize (IH (S a) s1 (Some e)).
    destruct (retry_loop_delete w (S a) n s1 (Some e)) as [[tr' s2] o]. simpl in IH |- *.
    destruct IH as (I1 & I2 & I3 & I5). rewrite I1, I2, I3. intuition.
  - specialize (IH (S a) s (Some e)).
    destruct (retry_loop_delete w (S a) n s (Some e)) as [[tr' s2] o]. exact IH.
Qed.

Lemma retry_loop_count_fields (w : world) (n : nat) : forall a s last,
  let s' := snd (fst (retry_loop_count w a n s last)) in
  current_folder s' = current_folder s /\ readonly s' = readonly s /\
  retries s' = retries s /\ (has_mail s = true -> has_mail s' = true).
Proof.
  induction n as [|n IH]; intros a s last; simpl; [auto|].
  destruct (shutdown_at w a); simpl; [auto|].
  destruct (op_result w a) as [r|e]; simpl; [auto|].
  destruct (is_connection_error e); simpl; [|auto].
  destruct (a <? retries s - 1).
  - rewrite connect_count_eq.
    pose proof (connect_delete_fields w s) as Hc.
    destruct (connect_delete w s) as [[tr s1] err]; simpl in Hc |- *.
    destruct Hc as (C1 & C2 & C3 & _ & C5).
    specialize (IH (S a) s1 (Some e)).
    destruct (retry_loop_count w (S a) n s1 (Some e)) as [[tr' s2] o]. simpl in IH |- *.
    destruct IH as (I1 & I2 & I3 & I5). rewrite I1, I2, I3. intuition.
  - specialize (IH (S a) s (Some e)).
    destruct (retry_loop_count w (S a) n s (Some e)) as [[tr' s2] o]. exact IH.
Qed.

Lemma connect_delete_reselects (w : world) (s : session) f :
  f <> ""%string -> has_mail s = true -> current_folder s = Some f ->
  open_result w (connects s) = None -> login_result w (connects s) = None ->
  fst (fst (connect_delete w s)) = [ELogoutOld; EOpen; ELogin; ESelect f (readonly s)].
Proof.
  intros Hne Hm Hf Ho Hl. unfold connect_delete. rewrite Hm, Ho, Hl, Hf.
  unfold folder_if_set. destruct (String.eqb_spec f ""); [contradiction|reflexivity].
Qed.

End SessionExtraFacts.

Module SessionExtras.
Import Session SessionFacts SessionExtraFacts.

(** imap_delete.py's [_retry_operation] returns only a value that one of
    its at most [retries] attempts returned, and raises only an exception
    that an attempt raised or that a step of a reconnect ([IMAP4_SSL],
    login, reselect) raised; with a budget of 0 it makes no attempt and
    raises [None], a [TypeError]. *)
Theorem retry_delete_outcome (w : world) (s : session) :
  match outcome_of (retry_operation_delete w s) with
  | Return r => exists k, k < retries s /\ op_result w k = Returned r
  | Raise e => (exists k, k < retries s /\ op_result w k = Raised e) \/
               (exists j, open_result w j = Some e \/ login_result w j = Some e \/
                          select_result w j = Some e)
  | RaiseNone => retries s = 0
  | ReturnAbort => False
  end.
Proof.
  pose proof (retry_loop_delete_provenance w (retries s) 0 s None
                ltac:(intros e0 H; discriminate)) as H.
  unfold retry_operation_delete.
  destruct (outcome_of (retry_loop_delete w 0 (retries s) s None)) as [r|e| |].
  - destruct H as (k & Hk & Hr). exists k. split; [lia|exact Hr].
  - destruct H as [(k & Hk & Hr)|H]; [left; exists k; split; [lia|exact Hr]|right; exact H].
  - exact (proj2 H).
  - exact H.
Qed.

(** imap_count.py's [_retry_operation] raises only an exception that one
    of its attempts raised: the errors of its reconnects never surface. It
    returns [('ABORT', [])] only when the shutdown flag was seen set at the
    start of an attempt, and raises [None] only with a budget of 0. *)
Theorem retry_count_outcome (w : world) (s : session) :
  match outcome_of (retry_operation_count w s) with
  | Return r => exists k, k < retries s /\ op_result w k = Returned r
  | Raise e => exists k, k < retries s /\ op_result w k = Raised e
  | RaiseNone => retries s = 0
  | ReturnAbort => exists k, k < retries s /\ shutdown_at w k = true
  end.
Proof.
  pose proof (retry_loop_count_provenance w (retries s) 0 s None
                ltac:(intros e0 H; discriminate)) as H.
  unfold retry_operation_count.
  destruct (outcome_of (retry_loop_count w 0 (retries s) s None)) as [r|e| |];
    try (destruct H as (k & Hk & Hr); exists k; split; [lia|exact Hr]).
  exact (proj2 H).
Qed.

(** [select(folder, readonly)] with a non-empty [folder] remembers the
    folder and the mode whatever the server answers, and they survive later retried operations of both
    variants: after them, a reconnect whose connection and login succeed
    selects [folder] again, in the same mode. *)
Theorem select_survives_retries (r : reply) (f : string) (ro : bool) (s : session)
    (w w' : world) :
  f <> ""%string -> has_mail s = true ->
  let s1 := snd (fst (select r f ro s)) in
  (let s2 := snd (fst (retry_operation_delete w s1)) in
   open_result w' (connects s2) = None -> login_result w' (connects s2) = None ->
   fst (fst (connect_delete w' s2)) = [ELogoutOld; EOpen; ELogin; ESelect f ro]) /\
  (let s2 := snd (fst (retry_operation_count w s1)) in
   open_result w' (connects s2) = None -> login_result w' (connects s2) = None ->
   fst (connect_count w' s2) = [ELogoutOld; EOpen; ELogin; ESelect f ro]).
Proof.
  intros Hne Hm s1.
  assert (H1 : has_mail s1 = true /\ current_folder s1 = Some f /\ readonly s1 = ro)
    by (subst s1; unfold has_mail in *; simpl; auto).
  destruct H1 as (M1 & F1 & R1). split.
  - intros s2 Ho Hl.
    destruct (retry_loop_delete_fields w (retries s1) 0 s1 None) as (F2 & R2 & _ & M2).
    change (retry_loop_delete w 0 (retries s1) s1 None) with (retry_operation_delete w s1)
      in F2, R2, M2.
    fold s2 in F2, R2, M2. rewrite F1 in F2. rewrite R1 in R2.
    rewrite (connect_delete_reselects w' s2 f Hne (M2 M1) F2 Ho Hl), R2. reflexivity.
  - intros s2 Ho Hl. rewrite connect_count_eq. simpl.
    destruct (retry_loop_count_fields w (retries s1) 0 s1 None) as (F2 & R2 & _ & M2).
    change (retry_loop_count w 0 (retries s1) s1 None) with (retry_operation_count w s1)
      in F2, R2, M2.
    fold s2 in F2, R2, M2. rewrite F1 in F2. rewrite R1 in R2.
    rewrite (connect_delete_reselects w' s2 f Hne (M2 M1) F2 Ho Hl), R2. reflexivity.
Qed.

Lemma select_survives_retries_witness :
  "Archive"%string <> ""%string /\ has_mail selected_session = true /\
  fst (fst (connect_delete relogin_fails_world
    (snd (fst (retry_operation_delete relogin_fails_world
       (snd (fst (select (Raised (IMAP4_error 2)) "Archive"%string false selected_session))))))))
  = [ELogoutOld; EOpen; ELogin; ESelect "Archive"%string false].
Proof.
  split; [discriminate|]. split; [reflexivity|].
  apply (proj1 (select_survives_retries (Raised (IMAP4_error 2)) "Archive"%string false
           selected_session relogin_fails_world relogin_fails_world ltac:(discriminate) eq_refl));
    vm_compute; reflexivity.
Defined.

End SessionExtras.

Module TopSendersFacts.
Import TopSenders.

Lemma lower_ascii_idem (c : ascii) : Census.lower_ascii (Census.lower_ascii c) = Census.lower_ascii c.
Proof. destruct c as [[] [] [] [] [] [] [] []]; reflexivity. Qed.

Lemma lower_idem (s : string) : Census.lower (Census.lower s) = Census.lower s.
Proof. induction s as [|c s IH]; simpl; [reflexivity|]. rewrite lower_ascii_idem, IH. reflexivity. Qed.

Lemma sender_of_in (e : env) p a :
  In a (sender_of e p) ->
  exists h, p = Tuple (Some h) /\ h <> ""%string /\ a = Census.lower (parseaddr e h).
Proof.
  unfold sender_of. destruct p as [[h|]|]; simpl; try tauto.
  destruct (string_dec h ""); simpl; [tauto|].
  destruct (string_dec (parseaddr e h) ""); simpl; [tauto|].
  intros [<-|[]]. exists h. auto.
Qed.


Lemma fetch_batches_ok (e : env) cs : forall s0 tr s,
  fetch_batches e cs s0 = (tr, s, None) ->
  tr = map EFetch cs /\
  (forall c, In c cs -> exists ps, fetch_answer e c = Ok ps \/ fetch_answer e c = NotOk) /\
  (forall a, In a s -> In a s0 \/
     exists c ps h, In c cs /\ fetch_answer e c = Ok ps /\ In (Tuple (Some h)) ps /\
                    h <> ""%string /\ Census.lower (parseaddr e h) = a).
Proof.
  induction cs as [|c cs IH]; intros s0 tr s; simpl.
  - intros [= <- <-]. split; [reflexivity|]. split; [tauto|auto].
  - destruct (fetch_answer e c) as [ps| |x] eqn:Hc; [| |discriminate].
    + specialize (IH (s0 ++ flat_map (sender_of e) ps)).
      destruct (fetch_batches e cs (s0 ++ flat_map (sender_of e) ps)) as [[tr' s'] err].
      destruct err; [discriminate|]. intros [= <- <-].
      destruct (IH tr' s' eq_refl) as (-> & Hall & Hs). split; [reflexivity|]. split.
      * intros c' [<-|Hc']; [exists ps; left; exact Hc|exact (Hall c' Hc')].
      * intros a Ha. destruct (Hs a Ha) as [Ha'|(c' & ps' & h & ? & ? & ? & ? & ?)].
        -- apply in_app_or in Ha' as [Ha'|Ha']; [left; exact Ha'|right].
           apply in_flat_map in Ha' as (p & Hp & Ha').
           destruct (sender_of_in e p a Ha') as (h & -> & Hh & ->).
           exists c, ps, h. auto.
        -- right. exists c', ps', h. auto.
    + specialize (IH s0).
      destruct (fetch_batches e cs s0) as [[tr' s'] err].
      destruct err; [discriminate|]. intros [= <- <-].
      destruct (IH tr' s' eq_refl) as (-> & Hall & Hs). split; [reflexivity|]. split.
      * intros c' [<-|Hc']; [exists []; right; exact Hc|exact (Hall c' Hc')].
      * intros a Ha. destruct (Hs a Ha) as [Ha'|(c' & ps' & h & ? & ? & ? & ? & ?)];
          [left; exact Ha'|right; exists c', ps', h; auto].
Qed.

Lemma report_in (s : list string) a n :
  In (a, n) (report s) ->
  In a s /\ n = count_occ string_dec s a /\ Census.MINIMUM_COUNT <= n.
Proof.
  unfold report. intros H.
  apply (Permutation_in _ (CensusFacts.sort_desc_perm _)) in H.
  apply filter_In in H as [H Hk]. apply Nat.leb_le in Hk. simpl in Hk.
  apply (proj2 (CensusFacts.Counter_spec s)) in H as [Ha Hn]. auto.
Qed.

Lemma report_shape (s : list string) :
  Sorted Census.desc (report s) /\ NoDup (map fst (report s)).
Proof.
  unfold report. split; [apply CensusFacts.sort_desc_sorted|].
  eapply Permutation_NoDup; [apply Permutation_map; symmetry; apply CensusFacts.sort_desc_perm|].
  apply CensusFacts.nodup_keys_filter, (proj1 (CensusFacts.Counter_spec s)).
Qed.

(** The run, taken apart at the search. *)
Lemma list_top_senders_cases (e : env) (f : string) :
  let '(itr, ir) := Session.init_delete (init_world e) in
  (exists x, ir = Session.InitRaised x /\
     list_top_senders e f = ([EInit itr], if is_imap_error x then Returned else Uncaught x)) \/
  (exists s0, ir = Session.Constructed s0 /\
   ((exists x, select_answer e = Fails x /\ list_top_senders e f = ([EInit itr; ESelect f], Uncaught x)) \/
    (select_answer e = NotOk /\ list_top_senders e f = ([EInit itr; ESelect f], Returned)) \/
    (exists u, select_answer e = Ok u /\
     ((exists x, search_answer e = Fails x /\
         list_top_senders e f = ([EInit itr; ESelect f; ESearch], Uncaught x)) \/
      (search_answer e = NotOk /\
         list_top_senders e f = ([EInit itr; ESelect f; ESearch], Returned)) \/
      (exists ids tr s err, search_answer e = Ok ids /\
         fetch_batches e (Planner.chunks chunk_size ids) [] = (tr, s, err) /\
         list_top_senders e f =
           let body := [EInit itr; ESelect f; ESearch] ++ tr in
           match err with
           | Some x => (body, Uncaught x)
           | None =>
               match close_result e with
               | Some x => (body ++ [EClose], Uncaught x)
               | None =>
                   match logout_result e with
                   | Some x => (body ++ [EClose; ELogout], Uncaught x)
                   | None => (body ++ [EClose; ELogout], Report (report s))
                   end
               end
           end))))).
Proof.
  unfold list_top_senders.
  destruct (Session.init_delete (init_world e)) as [itr [s0|x]].
  - right. exists s0. split; [reflexivity|].
    destruct (select_answer e) as [u| |x]; [right; right; exists u; split; [reflexivity|]
      |right; left; auto|left; exists x; auto].
    destruct (search_answer e) as [ids| |x]; [right; right|right; left; auto|left; exists x; auto].
    destruct (fetch_batches e (Planner.chunks chunk_size ids) []) as [[tr s] err] eqn:Hf.
    exists ids, tr, s, err. split; [reflexivity|]. split; [exact Hf|]. reflexivity.
  - left. exists x. auto.
Qed.

End TopSendersFacts.

Module TopSendersExtras.
Import TopSenders TopSendersFacts.

(** When [list_top_senders] prints its statistics, it has run the
    constructor, selected [folder], searched, fetched every batch of 100
    ids of the search in order, each answered [OK] or another status (none
    raised), and then closed and logged out, in this order. *)
Theorem report_trace (e : env) (folder : string) (rows : list (string * nat)) :
  snd (list_top_senders e folder) = Report rows ->
  exists itr ids, search_answer e = Ok ids /\
    fst (list_top_senders e folder) =
      [EInit itr; ESelect folder; ESearch] ++ map EFetch (Planner.chunks chunk_size ids) ++
      [EClose; ELogout] /\
    (forall c, In c (Planner.chunks chunk_size ids) ->
       exists ps, fetch_answer e c = Ok ps \/ fetch_answer e c = NotOk).
Proof.
  pose proof (list_top_senders_cases e folder) as H.
  destruct (Session.init_delete (init_world e)) as [itr ir].
  destruct H as [(x & _ & ->)|(s0 & _ & H)]; [simpl; destruct (is_imap_error x); discriminate|].
  destruct H as [(x & _ & ->)|[(_ & ->)|(u & _ & H)]]; try discriminate.
  destruct H as [(x & _ & ->)|[(_ & ->)|(ids & tr & s & err & Hs & Hf & ->)]]; try discriminate.
  destruct err as [x|]; [discriminate|].
  destruct (fetch_batches_ok e _ [] tr s Hf) as (-> & Hall & _).
  destruct (close_result e); [discriminate|]. destruct (logout_result e); [discriminate|].
  intros _. exists itr, ids. split; [exact Hs|]. split; [simpl; rewrite ?app_assoc; reflexivity|exact Hall].
Qed.

Lemma report_trace_witness :
  snd (list_top_senders sample_env "INBOX") =
    Report [("a@x.com"%string, 125); ("c@z.com"%string, 100); ("b@y.com"%string, 25)] /\
  exists itr ids, search_answer sample_env = Ok ids /\
    fst (list_top_senders sample_env "INBOX") =
      [EInit itr; ESelect "INBOX"; ESearch] ++ map EFetch (Planner.chunks chunk_size ids) ++
      [EClose; ELogout] /\
    (forall c, In c (Planner.chunks chunk_size ids) ->
       exists ps, fetch_answer sample_env c = Ok ps \/ fetch_answer sample_env c = NotOk).
Proof.
  split; [vm_compute; reflexivity|].
  apply (report_trace sample_env "INBOX"
    [("a@x.com"%string, 125); ("c@z.com"%string, 100); ("b@y.com"%string, 25)]).
  vm_compute. reflexivity.
Defined.

(** Every row of the printed statistics is a lower-case address with a
    count of at least [MINIMUM_COUNT], obtained by [parseaddr] from a
    non-empty [From] header of a batch whose fetch answered [OK]; rows are
    in non-increasing order of count and no address appears twice. *)
Theorem report_rows (e : env) (folder : string) (rows : list (string * nat)) :
  snd (list_top_senders e folder) = Report rows ->
  Sorted Census.desc rows /\ NoDup (map fst rows) /\
  forall a n, In (a, n) rows ->
    Census.lower a = a /\ Census.MINIMUM_COUNT <= n /\
    exists ids c ps h, search_answer e = Ok ids /\ In c (Planner.chunks chunk_size ids) /\
      fetch_answer e c = Ok ps /\ In (Tuple (Some h)) ps /\ h <> ""%string /\
      Census.lower (parseaddr e h) = a.
Proof.
  pose proof (list_top_senders_cases e folder) as H.
  destruct (Session.init_delete (init_world e)) as [itr ir].
  destruct H as [(x & _ & ->)|(s0 & _ & H)]; [simpl; destruct (is_imap_error x); discriminate|].
  destruct H as [(x & _ & ->)|[(_ & ->)|(u & _ & H)]]; try discriminate.
  destruct H as [(x & _ & ->)|[(_ & ->)|(ids & tr & s & err & Hs & Hf & ->)]]; try discriminate.
  destruct err as [x|]; [discriminate|].
  destruct (fetch_batches_ok e _ [] tr s Hf) as (_ & _ & Hsrc).
  destruct (close_result e); [discriminate|]. destruct (logout_result e); [discriminate|].
  intros [= <-]. destruct (report_shape s) as [Hsort Hnd].
  split; [exact Hsort|]. split; [exact Hnd|].
  intros a n Hin. destruct (report_in s a n Hin) as (Ha & _ & Hn).
  destruct (Hsrc a Ha) as [[]|(c & ps & h & Hc & Hps & Hh & Hne & Hl)].
  split; [rewrite <- Hl; apply lower_idem|]. split; [exact Hn|].
  exists ids, c, ps, h. repeat split; assumption.
Qed.

Lemma report_rows_witness :
  snd (list_top_senders sample_env "INBOX") =
    Report [("a@x.com"%string, 125); ("c@z.com"%string, 100); ("b@y.com"%string, 25)] /\
  In ("a@x.com"%string, 125)
    [("a@x.com"%string, 125); ("c@z.com"%string, 100); ("b@y.com"%string, 25)] /\
  Census.lower "a@x.com"%string = "a@x.com"%string.
Proof.
  assert (H : snd (list_top_senders sample_env "INBOX") =
    Report [("a@x.com"%string, 125); ("c@z.com"%string, 100); ("b@y.com"%string, 25)])
    by (vm_compute; reflexivity).
  split; [exact H|]. split; [left; reflexivity|].
  exact (proj1 (proj2 (proj2 (report_rows sample_env "INBOX" _ H)) "a@x.com"%string 125
                  (or_introl eq_refl))).
Defined.


End TopSendersExtras.
Module CountExtraFacts.
Import Count.









End CountExtraFacts.

Module CountExtras.
Import Count CountExtraFacts.



End CountExtras.
